(** * VocalFlowAI: the browser-side audio path

    A shallow embedding of the audio code of the front end
    ([Frontend/src/components/useVoiceStream.js] and
    [Frontend/src/components/useVoiceStream.jsx]): the sample conversions,
    the 320-sample frame accumulator, the playback queue and its
    scheduler, the teardown of the hook, the WAV writer and the
    downsampler with its floating-point arithmetic; and of the confidence
    smoothing described for the back end.  Definitions come first, the
    theorems about them follow. *)

From Stdlib Require Import Ascii String.
From Stdlib Require Import ZArith QArith Qround Qpower List Bool Lia Psatz Lqa.
From Stdlib Require SpecFloat.
From Equations Require Import Equations.
Import ListNotations.

Local Open Scope Z_scope.

(** ** JavaScript numbers *)

Module Js.

(** A JavaScript number is NaN, an infinity or a finite value.  Finite
    values are kept as rationals: every binary32 and binary64 value is
    one, and the products and quotients taken by the sample conversions
    ([s * 0x8000] and [s * 0x7fff] for a binary32 [s] in [-1, 1],
    [x / 0x8000] for a 16-bit [x]) are exact in binary64, so nothing is
    lost on them. *)
Inductive number : Type :=
| NaN : number
| Infinity (negative : bool) : number
| Fin (q : Q) : number.

Definition of_Z (z : Z) : number := Fin (inject_Z z).

Definition Qlt_bool (x y : Q) : bool := negb (Qle_bool y x).

(** [a < b] of the language: false as soon as one side is NaN. *)
Definition num_lt (a b : number) : bool :=
  match a, b with
  | NaN, _ | _, NaN => false
  | Infinity na, Infinity nb => na && negb nb
  | Infinity na, Fin _ => na
  | Fin _, Infinity nb => negb nb
  | Fin x, Fin y => Qlt_bool x y
  end.

(** [Math.min] and [Math.max] on two arguments: NaN is contagious. *)
Definition Math_min (a b : number) : number :=
  match a, b with
  | NaN, _ | _, NaN => NaN
  | _, _ => if num_lt b a then b else a
  end.

Definition Math_max (a b : number) : number :=
  match a, b with
  | NaN, _ | _, NaN => NaN
  | _, _ => if num_lt a b then b else a
  end.

Definition Qsign_neg (q : Q) : bool := Qlt_bool q 0.

Definition num_mul (a b : number) : number :=
  match a, b with
  | NaN, _ | _, NaN => NaN
  | Infinity na, Infinity nb => Infinity (xorb na nb)
  | Infinity na, Fin y =>
      if Qeq_bool y 0 then NaN else Infinity (xorb na (Qsign_neg y))
  | Fin x, Infinity nb =>
      if Qeq_bool x 0 then NaN else Infinity (xorb (Qsign_neg x) nb)
  | Fin x, Fin y => Fin (x * y)
  end.

Definition num_add (a b : number) : number :=
  match a, b with
  | NaN, _ | _, NaN => NaN
  | Infinity na, Infinity nb => if Bool.eqb na nb then Infinity na else NaN
  | Infinity na, Fin _ => Infinity na
  | Fin _, Infinity nb => Infinity nb
  | Fin x, Fin y => Fin (x + y)
  end.

Definition num_div (a b : number) : number :=
  match a, b with
  | NaN, _ | _, NaN => NaN
  | Infinity _, Infinity _ => NaN
  | Infinity na, Fin y => Infinity (xorb na (Qsign_neg y))
  | Fin x, Infinity _ => Fin 0
  | Fin x, Fin y =>
      if Qeq_bool y 0
      then (if Qeq_bool x 0 then NaN else Infinity (Qsign_neg x))
      else Fin (x / y)
  end.

(** Rounding toward zero, the integer part taken by the integer
    conversions. *)
Definition truncate (q : Q) : Z := Z.quot (Qnum q) (Zpos (Qden q)).

(** Reduction of an integer to the signed 16-bit range, modulo 2^16. *)
Definition wrap16 (z : Z) : Z :=
  let m := z mod 65536 in
  if 32768 <=? m then m - 65536 else m.

(** [ToInt16], applied by a store into an [Int16Array] and by
    [DataView.setInt16]: NaN and the infinities become 0, a finite value
    is truncated and wrapped. *)
Definition ToInt16 (x : number) : Z :=
  match x with
  | NaN | Infinity _ => 0
  | Fin q => wrap16 (truncate q)
  end.

(** [ToUint8], [ToUint16] and [ToUint32] on integers. *)
Definition ToUint8 (z : Z) : Z := z mod 256.
Definition ToUint16 (z : Z) : Z := z mod 65536.
Definition ToUint32 (z : Z) : Z := z mod 4294967296.

(** [Math.round]: the nearest integer, ties toward +infinity. *)
Definition Math_round (q : Q) : Z := Qfloor (q + (1 # 2)).

End Js.

(** ** Byte buffers behind a [DataView] *)

Module DataView.

Import Js.

(** An [ArrayBuffer] seen through a [DataView]: a list of bytes.  A write
    that does not fit raises a [RangeError], here [None]. *)
Definition buffer : Type := list Z.

Definition write_bytes (view : buffer) (offset : nat) (bs : list Z)
  : option buffer :=
  if (offset + length bs <=? length view)%nat
  then Some (firstn offset view ++ bs ++ skipn (offset + length bs) view)
  else None.

Definition bind {A B : Type} (m : option A) (k : A -> option B) : option B :=
  match m with
  | Some a => k a
  | None => None
  end.

Notation "x <- m ;; k" := (bind m (fun x => k))
  (at level 61, m at next level, right associativity).

(** The [n] little-endian bytes of [v]. *)
Fixpoint le_bytes (n : nat) (v : Z) : list Z :=
  match n with
  | O => []
  | S n' => v mod 256 :: le_bytes n' (v / 256)
  end.

(** Little-endian bytes read back as an unsigned integer. *)
Fixpoint le_value (bs : list Z) : Z :=
  match bs with
  | [] => 0
  | b :: bs' => b + 256 * le_value bs'
  end.

Definition setUint8 (view : buffer) (offset : nat) (v : Z) : option buffer :=
  write_bytes view offset [ToUint8 v].

(** [view.setUint16(offset, v, true)] and [view.setUint32(offset, v, true)]
    for an integer [v]. *)
Definition setUint16 (view : buffer) (offset : nat) (v : Z) : option buffer :=
  write_bytes view offset (le_bytes 2 (ToUint16 v)).

Definition setUint32 (view : buffer) (offset : nat) (v : Z) : option buffer :=
  write_bytes view offset (le_bytes 4 (ToUint32 v)).

(** [view.setInt16(offset, v, true)]: the two's complement bytes of
    [ToInt16 v]. *)
Definition setInt16 (view : buffer) (offset : nat) (v : number)
  : option buffer :=
  write_bytes view offset (le_bytes 2 (ToUint16 (ToInt16 v))).

Definition getUint16 (view : buffer) (offset : nat) : Z :=
  le_value (firstn 2 (skipn offset view)).

Definition getUint32 (view : buffer) (offset : nat) : Z :=
  le_value (firstn 4 (skipn offset view)).

(** A run of bytes read as little-endian signed 16-bit samples. *)
Fixpoint samples_of_bytes (bs : list Z) : list Z :=
  match bs with
  | lo :: hi :: rest => wrap16 (lo + 256 * hi) :: samples_of_bytes rest
  | _ => []
  end.

(** The two bytes that [setInt16] writes for a sample. *)
Definition sample_bytes (v : number) : list Z :=
  le_bytes 2 (ToUint16 (ToInt16 v)).

End DataView.

(** ** Sample conversions *)

Module Pcm.

Import Js DataView.

(** An [Int16Array] is a list of integers of the signed 16-bit range. *)
Definition is_int16 (z : Z) : Prop := -32768 <= z <= 32767.
Definition Int16Array_ok (a : list Z) : Prop := Forall is_int16 a.

(** The body of the loop of [floatToInt16] for one sample:
    [let s = Math.max(-1, Math.min(1, float32[i]));
     out[i] = s < 0 ? s * 0x8000 : s * 0x7fff;]
    first the number assigned, then what the [Int16Array] keeps of it. *)
Definition sample_to_number (x : number) : number :=
  let s := Math_max (of_Z (-1)) (Math_min (of_Z 1) x) in
  if num_lt s (of_Z 0) then num_mul s (of_Z 32768)
  else num_mul s (of_Z 32767).

Definition sample_to_int16 (x : number) : Z := ToInt16 (sample_to_number x).

(** [floatToInt16(float32)] of useVoiceStream.js: [out[i]] is written for
    each index in turn. *)
Definition floatToInt16 (float32 : list number) : list Z :=
  map sample_to_int16 float32.

(** [int16ToFloat32(int16)]: [out[i] = int16[i] / 0x8000]. *)
Definition int16ToFloat32 (int16 : list Z) : list number :=
  map (fun x => num_div (of_Z x) (of_Z 32768)) int16.

(** The loop of [floatTo16BitPCM]:
    [view.setInt16(i * 2, s < 0 ? s * 0x8000 : s * 0x7fff, true)]. *)
Fixpoint pcm_loop (view : buffer) (i : nat) (rest : list number)
  : option buffer :=
  match rest with
  | [] => Some view
  | x :: rest' =>
      view' <- setInt16 view (i * 2) (sample_to_number x) ;;
      pcm_loop view' (S i) rest'
  end.

(** [floatTo16BitPCM(float32Array)] of useVoiceStream.jsx: the bytes of
    the [Uint8Array] it returns. *)
Definition floatTo16BitPCM (float32Array : list number) : option (list Z) :=
  pcm_loop (repeat 0 (length float32Array * 2)) 0 float32Array.

(** The value of [s] after the clamp, and of the product, for a finite
    sample. *)
Definition clamp (q : Q) : Q :=
  let m := if Qlt_bool q (inject_Z 1) then q else inject_Z 1 in
  if Qlt_bool (inject_Z (-1)) m then m else inject_Z (-1).

Definition scaled (q : Q) : Q :=
  let s := clamp q in
  if Qlt_bool s (inject_Z 0) then s * inject_Z 32768 else s * inject_Z 32767.

(** One sample through [int16ToFloat32] and back through [floatToInt16]. *)
Definition roundtrip_sample (x : Z) : Z :=
  sample_to_int16 (num_div (of_Z x) (of_Z 32768)).

End Pcm.

(** ** The hook [useVoiceStream] of useVoiceStream.js *)

Module Hook.

Import Js.

Definition SAMPLE_RATE : Z := 16000.
Definition FRAME_SAMPLES : nat := 320.
Definition PREBUFFER_FRAMES : nat := 6.

(** The values announced to the server by [ws.onopen]:
    [{type: "start", sample_rate: 16000, frame_size_ms: 20, ...}]. *)
Definition start_sample_rate : Z := 16000.
Definition start_frame_size_ms : Z := 20.

Inductive readyState : Type := CONNECTING | OPEN | CLOSING | CLOSED.

Definition is_open (r : readyState) : bool :=
  match r with OPEN => true | _ => false end.

(** The strings given to [setStatus]. *)
Inductive status : Type :=
| idle | starting | running | closed | ws_error | error.

(** Objects of the platform are known by an identity only. *)
Definition handle : Type := nat.

(** The audio context: its [sampleRate]; [currentTime] is read from the
    environment whenever the code asks for it. *)
Record AudioContext : Type := { sampleRate : Q }.

(** The callbacks handed to [setTimeout(_, 20)] by [scheduleLoop]. *)
Inductive timer : Type :=
| TimerLoop    (* setTimeout(scheduleLoop, 20) *)
| TimerCheck.  (* setTimeout(() => { if (queue empty) isPlaying = false; else scheduleLoop(); }, 20) *)

(** A call made on a platform object during [stop]. *)
Inductive release : Type :=
| WsClose (h : handle)
| ProcDisconnect (h : handle)
| SourceDisconnect (h : handle)
| TracksStop (h : handle)
| CtxClose (c : AudioContext).

(** The refs and the state of the hook, with what it has handed to the
    platform so far: the frames sent on the socket, the buffer sources
    started (chunk and start time), the timers still pending and the
    release calls that went through. *)
Record hook : Type := {
  manualStopRef : bool;
  statusSt : status;
  wsRef : option handle;
  ctxRef : option AudioContext;
  streamRef : option handle;
  sourceRef : option handle;
  procRef : option handle;
  accumRef : list number;
  recvQueueRef : list (list Z);
  nextPlayTimeRef : Q;
  isPlayingRef : bool;
  enhancedChunksRef : list (list Z);
  sent : list (list Z);
  started : list (list Z * Q);
  timers : list timer;
  released : list release
}.

Definition with_accum (h : hook) (a : list number) (s : list (list Z)) : hook := {|
  manualStopRef := manualStopRef h; statusSt := statusSt h;
  wsRef := wsRef h; ctxRef := ctxRef h; streamRef := streamRef h;
  sourceRef := sourceRef h; procRef := procRef h;
  accumRef := a; recvQueueRef := recvQueueRef h;
  nextPlayTimeRef := nextPlayTimeRef h; isPlayingRef := isPlayingRef h;
  enhancedChunksRef := enhancedChunksRef h;
  sent := s; started := started h; timers := timers h;
  released := released h
|}.

Definition with_playback (h : hook) (q : list (list Z)) (next : Q)
  (playing : bool) (st : list (list Z * Q)) (ts : list timer) : hook := {|
  manualStopRef := manualStopRef h; statusSt := statusSt h;
  wsRef := wsRef h; ctxRef := ctxRef h; streamRef := streamRef h;
  sourceRef := sourceRef h; procRef := procRef h;
  accumRef := accumRef h; recvQueueRef := q;
  nextPlayTimeRef := next; isPlayingRef := playing;
  enhancedChunksRef := enhancedChunksRef h;
  sent := sent h; started := st; timers := ts;
  released := released h
|}.

Definition with_enhanced (h : hook) (e : list (list Z)) : hook := {|
  manualStopRef := manualStopRef h; statusSt := statusSt h;
  wsRef := wsRef h; ctxRef := ctxRef h; streamRef := streamRef h;
  sourceRef := sourceRef h; procRef := procRef h;
  accumRef := accumRef h; recvQueueRef := recvQueueRef h;
  nextPlayTimeRef := nextPlayTimeRef h; isPlayingRef := isPlayingRef h;
  enhancedChunksRef := e;
  sent := sent h; started := started h; timers := timers h;
  released := released h
|}.

(** *** The frame accumulator, [processor.onaudioprocess] *)

Definition full_frame (frame : list number) : Prop :=
  length frame = FRAME_SAMPLES.

(** [while (accum.length >= FRAME_SAMPLES) { const frame =
    accum.splice(0, FRAME_SAMPLES); sock.send(floatToInt16(frame).buffer); }]
    The accumulator shrinks by a frame at each turn. *)
Opaque FRAME_SAMPLES.
Equations? drain (accum : list number) (out : list (list Z))
  : list number * list (list Z) by wf (length accum) lt :=
drain accum out with le_lt_dec FRAME_SAMPLES (length accum) := {
  | left _ =>
      let frame := firstn FRAME_SAMPLES accum in
      drain (skipn FRAME_SAMPLES accum) (out ++ [Pcm.floatToInt16 frame])
  | right _ => (accum, out) }.
Proof.
  Transparent FRAME_SAMPLES.
  rewrite length_skipn. unfold FRAME_SAMPLES in *. lia.
Qed.

(** [processor.onaudioprocess(e)]: [state] is the [readyState] of the
    socket when the event arrives, [input] is
    [e.inputBuffer.getChannelData(0)]. *)
Definition onaudioprocess (state : readyState) (input : list number)
  (h : hook) : hook :=
  match wsRef h with
  | None => h
  | Some _ =>
      if negb (is_open state) then h
      else
        let accum := accumRef h ++ input in
        let '(accum', out) := drain accum (sent h) in
        with_accum h accum' out
  end.

(** A run of audio events, oldest first. *)
Fixpoint audio_run (evs : list (readyState * list number)) (h : hook) : hook :=
  match evs with
  | [] => h
  | (state, input) :: evs' => audio_run evs' (onaudioprocess state input h)
  end.

(** The samples the handler has pushed on the accumulator during a run
    that starts with socket [ws]: those of the events that found the
    socket open. *)
Definition pushed (ws : option handle) (evs : list (readyState * list number))
  : list number :=
  match ws with
  | None => []
  | Some _ =>
      flat_map (fun ev => if is_open (fst ev) then snd ev else []) evs
  end.

(** The state of the accumulator once the samples [P] were pushed on an
    empty one: whole frames of [P] were sent, the rest is kept. *)
Definition accumulated (P : list number) (h : hook) : Prop :=
  exists frames,
    sent h = map Pcm.floatToInt16 frames
    /\ concat frames ++ accumRef h = P
    /\ Forall full_frame frames
    /\ (length (accumRef h) < FRAME_SAMPLES)%nat.

(** *** The playback queue: [enqueue] and [scheduleLoop] *)

Definition chunk_empty (pcm16 : list Z) : bool :=
  match pcm16 with [] => true | _ => false end.

(** The [while (recvQueueRef.current.length > 0 && scheduled < 10)] loop
    of [scheduleLoop]; [now] is [ctx.currentTime], [rate] is
    [ctx.sampleRate].  Each turn shifts the head of the queue. *)
Fixpoint schedule_while (now rate : Q) (queue : list (list Z))
  (scheduled : nat) (next : Q) (st : list (list Z * Q))
  : list (list Z) * Q * list (list Z * Q) :=
  match queue with
  | [] => (queue, next, st)
  | pcm16 :: rest =>
      if (scheduled <? 10)%nat then
        if chunk_empty pcm16 then
          schedule_while now rate rest scheduled next st
        else
          let duration := (inject_Z (Z.of_nat (length pcm16)) / rate)%Q in
          let next1 :=
            if Qlt_bool next (now + (1 # 100)) then (now + (1 # 100))%Q
            else next in
          schedule_while now rate rest (S scheduled) (next1 + duration)%Q
            (st ++ [(pcm16, next1)])
      else (queue, next, st)
  end.

Definition scheduleLoop (now : Q) (h : hook) : hook :=
  match ctxRef h with
  | None => h
  | Some ctx =>
      let '(queue, next, st) :=
        schedule_while now (sampleRate ctx) (recvQueueRef h) 0
          (nextPlayTimeRef h) (started h) in
      match queue with
      | [] => with_playback h queue next (isPlayingRef h) st
                (timers h ++ [TimerCheck])
      | _ => with_playback h queue next (isPlayingRef h) st
               (timers h ++ [TimerLoop])
      end
  end.

(** [enqueue(pcm16)] at time [now]. *)
Definition enqueue (now : Q) (pcm16 : list Z) (h : hook) : hook :=
  let h1 :=
    with_enhanced
      (with_playback h (recvQueueRef h ++ [pcm16]) (nextPlayTimeRef h)
         (isPlayingRef h) (started h) (timers h))
      (enhancedChunksRef h ++ [pcm16]) in
  if negb (isPlayingRef h1)
     && (PREBUFFER_FRAMES <=? length (recvQueueRef h1))%nat
  then
    match ctxRef h1 with
    | None => h1
    | Some _ =>
        scheduleLoop now
          (with_playback h1 (recvQueueRef h1) (now + (5 # 100))%Q true
             (started h1) (timers h1))
    end
  else h1.

(** The oldest pending timer fires at time [now]. *)
Definition fire (now : Q) (h : hook) : hook :=
  match timers h with
  | [] => h
  | t :: ts =>
      let h1 :=
        with_playback h (recvQueueRef h) (nextPlayTimeRef h)
          (isPlayingRef h) (started h) ts in
      match t with
      | TimerLoop => scheduleLoop now h1
      | TimerCheck =>
          match recvQueueRef h1 with
          | [] => with_playback h1 (recvQueueRef h1) (nextPlayTimeRef h1)
                    false (started h1) (timers h1)
          | _ => scheduleLoop now h1
          end
      end
  end.

(** What happens to the playback side: a chunk arrives, or a timer
    fires; each event carries the audio clock at that moment. *)
Inductive playback_event : Type :=
| Enqueue (now : Q) (pcm16 : list Z)
| Fire (now : Q).

Definition playback_step (h : hook) (e : playback_event) : hook :=
  match e with
  | Enqueue now pcm16 => enqueue now pcm16 h
  | Fire now => fire now h
  end.

Definition playback_run (evs : list playback_event) (h : hook) : hook :=
  fold_left playback_step evs h.

(** The chunks handed to [enqueue] during a run, in order. *)
Fixpoint enqueued (evs : list playback_event) : list (list Z) :=
  match evs with
  | [] => []
  | Enqueue _ pcm16 :: evs' => pcm16 :: enqueued evs'
  | Fire _ :: evs' => enqueued evs'
  end.

Definition nonempty_chunks (cs : list (list Z)) : list (list Z) :=
  filter (fun c => negb (chunk_empty c)) cs.

(** The chunks handed to [src.start] so far, in the order of the calls,
    followed by those still waiting in the queue. *)
Definition playback_order (h : hook) : list (list Z) :=
  map fst (started h) ++ nonempty_chunks (recvQueueRef h).

(** A hook as [start()] leaves it: the refs are set, the context runs at
    [SAMPLE_RATE], the buffers are those of [resetBuffers()]. *)
Definition running_hook : hook := {|
  manualStopRef := false; statusSt := running;
  wsRef := Some 1%nat;
  ctxRef := Some {| sampleRate := inject_Z SAMPLE_RATE |};
  streamRef := Some 2%nat; sourceRef := Some 3%nat; procRef := Some 4%nat;
  accumRef := []; recvQueueRef := []; nextPlayTimeRef := 0%Q;
  isPlayingRef := false; enhancedChunksRef := [];
  sent := []; started := []; timers := []; released := []
|}.

(** A processed frame of 320 samples, all equal to [k]. *)
Definition frame_of (k : Z) : list Z := repeat k FRAME_SAMPLES.

(** Twelve frames in two bursts: six at time 0, the timer of the
    scheduler 20 ms later with nothing new in the queue, then six more
    between 25 ms and 30 ms. *)
Definition two_bursts : list playback_event :=
  [Enqueue 0 (frame_of 1); Enqueue 0 (frame_of 2); Enqueue 0 (frame_of 3);
   Enqueue 0 (frame_of 4); Enqueue 0 (frame_of 5); Enqueue 0 (frame_of 6);
   Fire (20 # 1000);
   Enqueue (25 # 1000) (frame_of 7); Enqueue (26 # 1000) (frame_of 8);
   Enqueue (27 # 1000) (frame_of 9); Enqueue (28 # 1000) (frame_of 10);
   Enqueue (29 # 1000) (frame_of 11); Enqueue (30 # 1000) (frame_of 12)].

(** *** Teardown: [stop] *)

(** [try { call } catch {}]: a call that throws leaves no trace. *)
Definition attempt (throws : release -> bool) (r : option release)
  (log : list release) : list release :=
  match r with
  | None => log
  | Some c => if throws c then log else log ++ [c]
  end.

(** [stop()].  [throws] tells which platform calls raise. *)
Definition stop (throws : release -> bool) (h : hook) : hook :=
  let log0 := released h in
  let log1 := attempt throws (option_map WsClose (wsRef h)) log0 in
  let log2 := attempt throws (option_map ProcDisconnect (procRef h)) log1 in
  let log3 := attempt throws (option_map SourceDisconnect (sourceRef h)) log2 in
  let log4 := attempt throws (option_map TracksStop (streamRef h)) log3 in
  let log5 := attempt throws (option_map CtxClose (ctxRef h)) log4 in
  {| manualStopRef := true; statusSt := idle;
     wsRef := None; ctxRef := None; streamRef := None; sourceRef := None;
     procRef := None;
     accumRef := accumRef h; recvQueueRef := recvQueueRef h;
     nextPlayTimeRef := nextPlayTimeRef h; isPlayingRef := false;
     enhancedChunksRef := enhancedChunksRef h;
     sent := sent h; started := started h; timers := timers h;
     released := log5 |}.

(** [ws.onclose]: the status becomes ["closed"] unless the hook closed
    the socket itself. *)
Definition ws_onclose (h : hook) : hook :=
  if manualStopRef h then h
  else {| manualStopRef := manualStopRef h; statusSt := closed;
          wsRef := wsRef h; ctxRef := ctxRef h; streamRef := streamRef h;
          sourceRef := sourceRef h; procRef := procRef h;
          accumRef := accumRef h; recvQueueRef := recvQueueRef h;
          nextPlayTimeRef := nextPlayTimeRef h;
          isPlayingRef := isPlayingRef h;
          enhancedChunksRef := enhancedChunksRef h;
          sent := sent h; started := started h; timers := timers h;
          released := released h |}.

End Hook.

(** ** The WAV writer, [pcm16ToWavBlob] of useVoiceStream.js *)

Module Wav.

Import Js DataView.

Definition charCodeAt (c : ascii) : Z := Z.of_N (N_of_ascii c).

(** [writeStr(offset, str)]: one [setUint8] per character. *)
Fixpoint writeStr (view : buffer) (offset : nat) (str : string)
  : option buffer :=
  match str with
  | EmptyString => Some view
  | String c rest =>
      view' <- setUint8 view offset (charCodeAt c) ;;
      writeStr view' (S offset) rest
  end.

(** [for (let i = 0; i < pcm16.length; i++, off += 2)
      view.setInt16(off, pcm16[i], true);] *)
Fixpoint write_samples (view : buffer) (off : nat) (pcm16 : list Z)
  : option buffer :=
  match pcm16 with
  | [] => Some view
  | x :: rest =>
      view' <- setInt16 view off (of_Z x) ;;
      write_samples view' (off + 2) rest
  end.

Record Blob : Type := { blob_bytes : list Z; blob_type : string }.

(** [pcm16ToWavBlob(pcm16, sampleRate, numChannels)] for integer
    [sampleRate] and [numChannels]. *)
Definition pcm16ToWavBlob (pcm16 : list Z) (sampleRate numChannels : Z)
  : option Blob :=
  let bytesPerSample := 2 in
  let blockAlign := numChannels * bytesPerSample in
  let byteRate := sampleRate * blockAlign in
  let dataSize := Z.of_nat (length pcm16) * bytesPerSample in
  let view := repeat 0 (44 + length pcm16 * 2) in
  view <- writeStr view 0 "RIFF" ;;
  view <- setUint32 view 4 (36 + dataSize) ;;
  view <- writeStr view 8 "WAVE" ;;
  view <- writeStr view 12 "fmt " ;;
  view <- setUint32 view 16 16 ;;
  view <- setUint16 view 20 1 ;;
  view <- setUint16 view 22 numChannels ;;
  view <- setUint32 view 24 sampleRate ;;
  view <- setUint32 view 28 byteRate ;;
  view <- setUint16 view 32 blockAlign ;;
  view <- setUint16 view 34 16 ;;
  view <- writeStr view 36 "data" ;;
  view <- setUint32 view 40 dataSize ;;
  view <- write_samples view 44 pcm16 ;;
  Some {| blob_bytes := view; blob_type := "audio/wav" |}.

(** The 44 bytes of the header, as the calls above lay them out. *)
Definition header (n : nat) (sampleRate numChannels : Z) : list Z :=
  [82; 73; 70; 70]
  ++ le_bytes 4 (ToUint32 (36 + Z.of_nat n * 2))
  ++ [87; 65; 86; 69; 102; 109; 116; 32]
  ++ le_bytes 4 (ToUint32 16)
  ++ le_bytes 2 (ToUint16 1)
  ++ le_bytes 2 (ToUint16 numChannels)
  ++ le_bytes 4 (ToUint32 sampleRate)
  ++ le_bytes 4 (ToUint32 (sampleRate * (numChannels * 2)))
  ++ le_bytes 2 (ToUint16 (numChannels * 2))
  ++ le_bytes 2 (ToUint16 16)
  ++ [100; 97; 116; 97]
  ++ le_bytes 4 (ToUint32 (Z.of_nat n * 2)).

End Wav.

(** ** Binary floating point *)

Module Ieee754.

Import SpecFloat Js.

(** The arithmetic of the downsampler rounds: its quotients, products and
    sums are binary64 operations and its result is stored in a
    [Float32Array].  There a number is a binary64 value of the Standard
    Library's specification of IEEE 754 ([SpecFloat]), which keeps the
    sign of zero and rounds to nearest, ties to even.  Numbers are in the
    canonical form of [valid_binary], in which [ldexp] and the operations
    return them. *)
Definition float : Type := spec_float.

Definition prec64 : Z := 53.
Definition emax64 : Z := 1024.
Definition prec32 : Z := 24.
Definition emax32 : Z := 128.

(** [a + b], [a * b] and [a / b] on two numbers. *)
Definition add : float -> float -> float := SFadd prec64 emax64.
Definition mul : float -> float -> float := SFmul prec64 emax64.
Definition div : float -> float -> float := SFdiv prec64 emax64.

(** [a === b] on two numbers: false when one is NaN, true on the two
    zeros. *)
Definition strict_eq : float -> float -> bool := SFeqb.

(** The number nearest to [m * 2^e]. *)
Definition ldexp (m e : Z) : float := binary_normalize prec64 emax64 m e false.

(** The number of an integer; exact below 2^53. *)
Definition of_Z (z : Z) : float := ldexp z 0.

Definition zero : float := S754_zero false.

(** The rational that a finite number stands for. *)
Definition value (s : bool) (m : positive) (e : Z) : Q :=
  let v := (inject_Z (Zpos m) * Qpower 2 e)%Q in
  if s then (- v)%Q else v.

(** A number as the sample conversions take it; the sign of zero is
    dropped, which they do not observe. *)
Definition to_number (x : float) : number :=
  match x with
  | S754_nan => NaN
  | S754_infinity s => Infinity s
  | S754_zero _ => Fin 0
  | S754_finite s m e => Fin (value s m e)
  end.

(** What [Math.round] returns: NaN, an infinity or an integer (the sign
    of a zero result is dropped; it is used as a bound and as an index
    only). *)
Inductive rounded : Type :=
| RNaN : rounded
| RInfinity (negative : bool) : rounded
| RInt (z : Z) : rounded.

(** [Math.round(x)]: NaN and the infinities are returned as they are, a
    finite [x] gives the integer nearest to it, the larger one on a
    tie. *)
Definition Math_round (x : float) : rounded :=
  match x with
  | S754_nan => RNaN
  | S754_infinity s => RInfinity s
  | S754_zero _ => RInt 0
  | S754_finite s m e => RInt (Js.Math_round (value s m e))
  end.

(** [i < r] for an integer [i]. *)
Definition int_lt (i : Z) (r : rounded) : bool :=
  match r with
  | RNaN => false
  | RInfinity negative => negb negative
  | RInt n => i <? n
  end.

(** The binary32 value kept by a store into a [Float32Array], read back
    as a number. *)
Definition fround (x : float) : float :=
  match x with
  | S754_finite s m e =>
      match binary_round prec32 emax32 s m e with
      | S754_finite s' m' e' => binary_round prec64 emax64 s' m' e'
      | y => y
      end
  | _ => x
  end.

(** [new Float32Array(length)] for a number [length]: [ToIndex] takes NaN
    to 0 and raises a [RangeError], here [None], on a negative or
    infinite length and above 2^53 - 1.  As for every allocation of
    these hooks, running out of memory is not modelled. *)
Definition Float32Array_new (len : rounded) : option (list float) :=
  match len with
  | RNaN => Some []
  | RInfinity _ => None
  | RInt n =>
      if (0 <=? n) && (n <=? 9007199254740991)
      then Some (repeat zero (Z.to_nat n))
      else None
  end.

(** A number whose sign bit is [s], or NaN. *)
Definition signed (s : bool) (x : float) : Prop :=
  match x with
  | S754_nan => True
  | S754_zero s' | S754_infinity s' | S754_finite s' _ _ => s' = s
  end.

End Ieee754.

(** ** The downsampler, [downsampleBuffer] of useVoiceStream.jsx *)

Module Resample.

Import SpecFloat Js DataView Ieee754.

(** [buffer[i]]: [undefined] outside the array, which arithmetic turns
    into NaN. *)
Definition index (buffer : list float) (i : Z) : float :=
  if i <? 0 then S754_nan else nth (Z.to_nat i) buffer S754_nan.

(** A store [result[i] = v] into a typed array: ignored out of range. *)
Fixpoint store (result : list float) (i : nat) (v : float) : list float :=
  match result, i with
  | [], _ => []
  | _ :: t, O => v :: t
  | x :: t, S i' => x :: store t i' v
  end.

(** The turns of
    [for (let i = ...; i < nextOffsetBuffer && i < buffer.length; i++)
      { accum += buffer[i]; count++; }]
    from an integer [i] on.  The counters are integers: the loop runs
    below [buffer.length], where [count++] is exact, and so is [i++] from
    -2^53 on (no start is negative: [offset_forward] below). *)
Equations? mean_loop (buffer : list float) (nextOffsetBuffer : rounded)
  (i : Z) (accum : float) (count : Z) : float * Z
  by wf (Z.to_nat (Z.of_nat (length buffer) - i)) lt :=
mean_loop buffer nextOffsetBuffer i accum count
  with int_lt i nextOffsetBuffer := {
  | true with Z_lt_dec i (Z.of_nat (length buffer)) := {
    | left _ =>
        mean_loop buffer nextOffsetBuffer (i + 1)
          (add accum (index buffer i)) (count + 1)
    | right _ => (accum, count) }
  | false => (accum, count) }.
Proof. lia. Qed.

(** The whole [for] loop, with [let accum = 0, count = 0] before it.
    [offsetBuffer] is 0 or the value of an earlier [Math.round], which
    [Math.round(offsetBuffer)] returns as it is.  From NaN or +Infinity
    the test fails at once.  From -Infinity, [i++] leaves [i] where it is
    and the loop does not end unless the first test fails: [None]. *)
Definition for_loop (buffer : list float) (nextOffsetBuffer : rounded)
  (offsetBuffer : rounded) : option (float * Z) :=
  match offsetBuffer with
  | RInt i => Some (mean_loop buffer nextOffsetBuffer i zero 0)
  | RNaN | RInfinity false => Some (zero, 0)
  | RInfinity true =>
      match nextOffsetBuffer with
      | RNaN | RInfinity true => Some (zero, 0)
      | _ => None
      end
  end.

(** [Math.round((offsetResult + 1) * ratio)]. *)
Definition next_offset (ratio : float) (offsetResult : Z) : rounded :=
  Math_round (mul (of_Z (offsetResult + 1)) ratio).

(** [count ? accum / count : 0]. *)
Definition quotient (ac : float * Z) : float :=
  if snd ac =? 0 then zero else div (fst ac) (of_Z (snd ac)).

(** [while (offsetResult < newLength) { ... }] for an integer
    [newLength], the length of [result]: at most 2^53 - 1, so that
    [offsetResult + 1] is exact.  The value stored is rounded to
    binary32. *)
Equations? resample_loop (buffer : list float) (ratio : float)
  (newLength : Z) (offsetResult : Z) (offsetBuffer : rounded)
  (result : list float) : option (list float)
  by wf (Z.to_nat (newLength - offsetResult)) lt :=
resample_loop buffer ratio newLength offsetResult offsetBuffer result
  with Z_lt_dec offsetResult newLength := {
  | left _
      with for_loop buffer (next_offset ratio offsetResult) offsetBuffer := {
    | Some ac =>
        resample_loop buffer ratio newLength (offsetResult + 1)
          (next_offset ratio offsetResult)
          (store result (Z.to_nat offsetResult) (fround (quotient ac)))
    | None => None }
  | right _ => Some result }.
Proof. lia. Qed.

(** [downsampleBuffer(buffer, sampleRate, outRate)]: [None] when the call
    returns nothing.  Once the result is allocated [newLength] is an
    integer, or NaN, and then [offsetResult < newLength] fails at
    once. *)
Definition downsampleBuffer (buffer : list float) (sampleRate outRate : float)
  : option (list float) :=
  if strict_eq outRate sampleRate then Some buffer
  else
    let ratio := div sampleRate outRate in
    let newLength :=
      Math_round (div (of_Z (Z.of_nat (length buffer))) ratio) in
    result <- Float32Array_new newLength ;;
    match newLength with
    | RInt n => resample_loop buffer ratio n 0 (RInt 0) result
    | _ => Some result
    end.

(** The length that the result is given, [None] for a [RangeError]. *)
Definition new_length (n : nat) (ratio : float) : option nat :=
  option_map (@length float)
    (Float32Array_new (Math_round (div (of_Z (Z.of_nat n)) ratio))).

(** The mean that the code takes of a run of samples: the sum from the
    left, each addition rounded, divided by the count; 0 for an empty
    run. *)
Definition sum (l : list float) : float := fold_left add l zero.

Definition mean (l : list float) : float :=
  match l with
  | [] => zero
  | _ => div (sum l) (of_Z (Z.of_nat (length l)))
  end.

(** Where the segment of output sample [k] begins in the input:
    [Math.round(k * ratio)], the product rounded. *)
Definition offset (ratio : float) (k : nat) : rounded :=
  match k with
  | O => RInt 0
  | S _ => Math_round (mul (of_Z (Z.of_nat k)) ratio)
  end.

(** The samples from [lo] up to [hi], cut at the end of the buffer. *)
Definition slice (buffer : list float) (lo hi : rounded) : list float :=
  match lo, hi with
  | RInt a, RInt b =>
      firstn (Z.to_nat b - Z.to_nat a) (skipn (Z.to_nat a) buffer)
  | RInt a, RInfinity false => skipn (Z.to_nat a) buffer
  | _, _ => []
  end.

Definition segment (buffer : list float) (ratio : float) (k : nat)
  : list float :=
  slice buffer (offset ratio k) (offset ratio (S k)).

Definition output_sample (buffer : list float) (ratio : float) (k : nat)
  : float :=
  fround (mean (segment buffer ratio k)).

(** A bound of a segment that lies ahead: not negative, not -Infinity. *)
Definition forward (r : rounded) : Prop :=
  match r with
  | RInt z => 0 <= z
  | RInfinity negative => negative = false
  | RNaN => True
  end.

End Resample.

(** ** Confidence smoothing *)

Module Confidence.

(** Modelled from the spec: the smoothing of the confidence scorer, the
    function [smooth_confidence] of the back end
    ([app/audio/ml/confidence.py]), which is not among the sources.
    Section 4.5: "exponential moving average, smoothed = alpha * raw +
    (1 - alpha) * prior_smoothed, alpha configurable (default 0.7), state
    initialized to the first raw score for a stream".  Scores are exact
    rationals. *)
Definition smooth (alpha raw prior_smoothed : Q) : Q :=
  alpha * raw + (1 - alpha) * prior_smoothed.

Definition default_alpha : Q := 7 # 10.

(** Modelled from the spec: the smoothing state of a stream, empty until
    the first raw score arrives. *)
Definition smoothing_state : Type := option Q.

(** Modelled from the spec: one scoring step of a stream.  The first raw
    score becomes the state as it is; later ones are smoothed against
    the state. *)
Definition smooth_step (alpha : Q) (st : smoothing_state) (raw : Q) : Q :=
  match st with
  | None => raw
  | Some prior => smooth alpha raw prior
  end.

(** Modelled from the spec: the smoothed scores of a stream of raw scores,
    in order, with the state threaded through. *)
Fixpoint smooth_stream (alpha : Q) (st : smoothing_state) (raws : list Q)
  : list Q :=
  match raws with
  | [] => []
  | raw :: rest =>
      let s := smooth_step alpha st raw in
      s :: smooth_stream alpha (Some s) rest
  end.

(** The state after [n] applications of the same raw score to a prior
    smoothed value. *)
Fixpoint smooth_iter (alpha raw : Q) (n : nat) (prior : Q) : Q :=
  match n with
  | O => prior
  | S n' => smooth alpha raw (smooth_iter alpha raw n' prior)
  end.

(** [(1 - alpha)^n], the share of the prior value left after [n]
    applications. *)
Fixpoint decay (alpha : Q) (n : nat) : Q :=
  match n with
  | O => 1
  | S n' => (1 - alpha) * decay alpha n'
  end.

Definition in_range (x : Q) : Prop := (0 <= x /\ x <= 100)%Q.

End Confidence.

(** ** The preview of useVoiceStream.js: [concatInt16] and [makePreview] *)

Module Preview.

Import Js DataView.

(** [out.set(a, offset)] on a typed array: a [RangeError], here [None],
    when [a] does not fit behind [offset]. *)
Definition set_at (out a : list Z) (offset : nat) : option (list Z) :=
  if (offset + length a <=? length out)%nat
  then Some (firstn offset out ++ a ++ skipn (offset + length a) out)
  else None.

(** [for (const a of chunks) { out.set(a, offset); offset += a.length; }] *)
Fixpoint concat_loop (out : list Z) (offset : nat) (chunks : list (list Z))
  : option (list Z) :=
  match chunks with
  | [] => Some out
  | a :: rest =>
      out' <- set_at out a offset ;;
      concat_loop out' (offset + length a) rest
  end.

(** [chunks.reduce((s, a) => s + a.length, 0)] *)
Definition total_length (chunks : list (list Z)) : nat :=
  fold_left (fun s a => (s + length a)%nat) chunks 0%nat.

(** [concatInt16(chunks)] *)
Definition concatInt16 (chunks : list (list Z)) : option (list Z) :=
  let total := total_length chunks in
  concat_loop (repeat 0 total) 0 chunks.

(** What [makePreview()] does with the chunks kept for the preview: it
    raises, it returns without a preview, or it hands a blob to
    [URL.createObjectURL]. *)
Inductive outcome : Type :=
| Raised
| NoPreview
| PreviewOf (blob : Wav.Blob).

(** [makePreview()] of the first hook:
    [const all = concatInt16(enhancedChunksRef.current);
     if (all.length === 0) return;
     const wav = pcm16ToWavBlob(all, SAMPLE_RATE, 1); ...] *)
Definition makePreview (h : Hook.hook) : outcome :=
  match concatInt16 (Hook.enhancedChunksRef h) with
  | None => Raised
  | Some all =>
      match all with
      | [] => NoPreview
      | _ =>
          match Wav.pcm16ToWavBlob all Hook.SAMPLE_RATE 1 with
          | None => Raised
          | Some wav => PreviewOf wav
          end
      end
  end.

(** [new Int16Array(msg.data)] over an [ArrayBuffer], on a little-endian
    platform: a [RangeError] when the byte length is odd. *)
Definition Int16Array_of_buffer (data : list Z) : option (list Z) :=
  if Nat.even (length data) then Some (samples_of_bytes data) else None.

(** The bytes of [pcm16.buffer] for an [Int16Array], on a little-endian
    platform. *)
Definition buffer_of_Int16Array (pcm16 : list Z) : list Z :=
  flat_map (fun x => sample_bytes (of_Z x)) pcm16.

(** [ws.onmessage] of the first hook, for a binary message:
    [if (!msg.data || msg.data.byteLength === 0) return;
     const pcm16 = new Int16Array(msg.data);
     if (pcm16.length === 0) return;
     enqueue(pcm16);]
    A handler that raises leaves the hook as it was. *)
Definition onmessage (now : Q) (data : list Z) (h : Hook.hook) : Hook.hook :=
  match data with
  | [] => h
  | _ =>
      match Int16Array_of_buffer data with
      | None => h
      | Some pcm16 =>
          if Hook.chunk_empty pcm16 then h else Hook.enqueue now pcm16 h
      end
  end.

(** What happens to the receiving side: a binary message, or a timer. *)
Inductive receive_event : Type :=
| Message (now : Q) (data : list Z)
| Tick (now : Q).

Definition receive_step (h : Hook.hook) (e : receive_event) : Hook.hook :=
  match e with
  | Message now data => onmessage now data h
  | Tick now => Hook.fire now h
  end.

Definition receive_run (evs : list receive_event) (h : Hook.hook)
  : Hook.hook :=
  fold_left receive_step evs h.

(** The chunks that the messages of a run carry: those with a non-empty
    payload of even length, decoded. *)
Fixpoint received (evs : list receive_event) : list (list Z) :=
  match evs with
  | [] => []
  | Message _ data :: evs' =>
      match data, Int16Array_of_buffer data with
      | _ :: _, Some pcm16 => pcm16 :: received evs'
      | _, _ => received evs'
      end
  | Tick _ :: evs' => received evs'
  end.

(** A queue in which every chunk holds samples. *)
Definition no_empty_chunk (queue : list (list Z)) : Prop :=
  Forall (fun c => Hook.chunk_empty c = false) queue.

End Preview.

(** ** The recording hook of useVoiceStream.js (second and third version) *)

Module Recorder.

Import Js DataView.

Definition SAMPLE_RATE : Z := 16000.
Definition FRAME_SAMPLES : nat := 320.

(** The accumulator of the recording hook and the frames that went out
    on its socket. *)
Record recorder : Type := {
  accumulatedInput : list number;
  sent : list (list Z)
}.

(** [new Int16Array(frame.map(sample => { const s = Math.max(-1,
    Math.min(1, sample)); return s < 0 ? s * 0x8000 : s * 0x7FFF; }))]:
    the array constructor converts each number as a store does. *)
Definition frame_to_int16 (frame : list number) : list Z :=
  map (fun sample => ToInt16 (Pcm.sample_to_number sample)) frame.

(** [while (accumulatedInput.current.length >= FRAME_SAMPLES) { const frame
    = splice(0, FRAME_SAMPLES); const int16 = ...; if (ws && ws.readyState
    === WebSocket.OPEN) ws.send(int16.buffer); }]; [can_send] is the value
    of the test. *)
Lemma FRAME_SAMPLES_positive : (0 < FRAME_SAMPLES)%nat.
Proof. unfold FRAME_SAMPLES. lia. Qed.

Opaque FRAME_SAMPLES.
Equations? drain (can_send : bool) (accum : list number)
  (out : list (list Z)) : list number * list (list Z)
  by wf (length accum) lt :=
drain can_send accum out with le_lt_dec FRAME_SAMPLES (length accum) := {
  | left _ =>
      let frame := firstn FRAME_SAMPLES accum in
      let int16 := frame_to_int16 frame in
      drain can_send (skipn FRAME_SAMPLES accum)
        (if can_send then out ++ [int16] else out)
  | right _ => (accum, out) }.
Proof.
  rewrite length_skipn. pose proof FRAME_SAMPLES_positive. lia.
Qed.
Transparent FRAME_SAMPLES.

(** [processor.onaudioprocess(e)] of the recording hook: [ws] is
    [wsRef.current], [state] the [readyState] of that socket. *)
Definition onaudioprocess (ws : option Hook.handle) (state : Hook.readyState)
  (input : list number) (r : recorder) : recorder :=
  let can_send :=
    match ws with
    | None => false
    | Some _ => Hook.is_open state
    end in
  let '(accum, out) :=
    drain can_send (accumulatedInput r ++ input) (sent r) in
  {| accumulatedInput := accum; sent := out |}.

(** A run of audio events, each with the socket ref and state it finds. *)
Fixpoint audio_run
  (evs : list (option Hook.handle * Hook.readyState * list number))
  (r : recorder) : recorder :=
  match evs with
  | [] => r
  | (ws, state, input) :: evs' =>
      audio_run evs' (onaudioprocess ws state input r)
  end.

(** [accumulatedInput.current = []] of [start()], on a new socket. *)
Definition fresh : recorder := {| accumulatedInput := []; sent := [] |}.

(** All the samples of a run, in order. *)
Definition all_input
  (evs : list (option Hook.handle * Hook.readyState * list number))
  : list number :=
  flat_map snd evs.

(** The loop of [makePreview] that writes the samples:
    [for (let i = 0; i < combined.length; i++)
       view.setInt16(pcmOffset + i * 2, combined[i], true);] *)
Fixpoint sample_loop (view : buffer) (pcmOffset i : nat) (rest : list Z)
  : option buffer :=
  match rest with
  | [] => Some view
  | x :: rest' =>
      view' <- setInt16 view (pcmOffset + i * 2) (of_Z x) ;;
      sample_loop view' pcmOffset (S i) rest'
  end.

(** [makePreview()] of the recording hook, on the chunks received. *)
Definition makePreview (enhancedChunks : list (list Z)) : Preview.outcome :=
  match enhancedChunks with
  | [] => Preview.NoPreview
  | _ =>
      let totalSamples :=
        fold_left (fun sum chunk => (sum + length chunk)%nat)
          enhancedChunks 0%nat in
      let blob :=
        combined <-
          Preview.concat_loop (repeat 0 totalSamples) 0 enhancedChunks ;;
        let view := repeat 0 (44 + length combined * 2) in
        view <- Wav.writeStr view 0 "RIFF" ;;
        view <- setUint32 view 4 (36 + Z.of_nat (length combined) * 2) ;;
        view <- Wav.writeStr view 8 "WAVE" ;;
        view <- Wav.writeStr view 12 "fmt " ;;
        view <- setUint32 view 16 16 ;;
        view <- setUint16 view 20 1 ;;
        view <- setUint16 view 22 1 ;;
        view <- setUint32 view 24 SAMPLE_RATE ;;
        view <- setUint32 view 28 (SAMPLE_RATE * 2) ;;
        view <- setUint16 view 32 2 ;;
        view <- setUint16 view 34 16 ;;
        view <- Wav.writeStr view 36 "data" ;;
        view <- setUint32 view 40 (Z.of_nat (length combined) * 2) ;;
        view <- sample_loop view 44 0 combined ;;
        Some {| Wav.blob_bytes := view; Wav.blob_type := "audio/wav" |} in
      match blob with
      | None => Preview.Raised
      | Some b => Preview.PreviewOf b
      end
  end.

(** The state of the recorder once the samples [P] came in on an empty
    accumulator: whole frames of [P] were cut, the rest is kept, and the
    frames sent are some of the frames cut. *)
Definition recorded (P : list number) (r : recorder) : Prop :=
  exists frames,
    concat frames ++ accumulatedInput r = P
    /\ Forall (fun f => length f = FRAME_SAMPLES) frames
    /\ (length (accumulatedInput r) < FRAME_SAMPLES)%nat
    /\ (length (sent r) <= length frames)%nat
    /\ Forall (fun f => length f = FRAME_SAMPLES) (sent r).

End Recorder.

(** ** The timeline of the scheduler *)

Module Timeline.

Import Hook.

(** [buffer.duration] of the buffer made for a chunk. *)
Definition duration (rate : Q) (pcm16 : list Z) : Q :=
  (inject_Z (Z.of_nat (length pcm16)) / rate)%Q.




(** One scheduler at most: a timer is pending exactly while
    [isPlayingRef.current] is set. *)
Definition one_chain (h : hook) : Prop :=
  length (timers h) = if isPlayingRef h then 1%nat else 0%nat.

(** While only timers fire, the scheduler stays alive as long as chunks
    wait. *)
Definition alive (h : hook) : Prop :=
  one_chain h /\ (isPlayingRef h = true \/ recvQueueRef h = []).

(** A backlog: six chunks start playback at time 0 and are scheduled at
    once; thirteen more, one of them empty, arrive before the first
    tick. *)
Definition backlog : list playback_event :=
  map (fun k => Enqueue 0 [k]) [1; 2; 3; 4; 5; 6]
  ++ map (Enqueue (1 # 100))
       [[7]; []; [8]; [9]; [10]; [11]; [12]; [13]; [14]; [15]; [16]; [17];
        [18]].

End Timeline.

(** ** The streaming hook of useVoiceStream.jsx *)

Module Streamer.

Import Js DataView Ieee754.

Definition TARGET_SAMPLE_RATE : float := of_Z 16000.

(** The little-endian int16 bytes of a downsampled buffer. *)
Definition encoded (down : list float) : list Z :=
  Preview.buffer_of_Int16Array (Pcm.floatToInt16 (map to_number down)).

(** The bytes that one audio callback makes of its input, the samples of
    a [Float32Array]:
    [const down = downsampleBuffer(input, ac.sampleRate, TARGET_SAMPLE_RATE);
     const pcmBytes = floatTo16BitPCM(down);]
    [None] when a call raises.  The samples of [down] are binary32
    values, on which the products of [floatTo16BitPCM] are exact. *)
Definition pcm_bytes (sampleRate : float) (input : list float)
  : option (list Z) :=
  down <- Resample.downsampleBuffer input sampleRate TARGET_SAMPLE_RATE ;;
  Pcm.floatTo16BitPCM (map to_number down).

(** [processor.onaudioprocess] of [start()]: the chunk is handed to the
    controller of the request body when there is one; an error is caught
    and logged.  [enqueued] is what the controller has received. *)
Definition onaudioprocess (sampleRate : float) (controller : bool)
  (input : list float) (enqueued : list (list Z)) : list (list Z) :=
  match pcm_bytes sampleRate input with
  | None => enqueued
  | Some pcmBytes => if controller then enqueued ++ [pcmBytes] else enqueued
  end.

(** The callbacks of [makePreview()]: [chunks.push(pcm)], nothing pushed
    by a callback that raises. *)
Fixpoint collect (sampleRate : float) (inputs : list (list float))
  (chunks : list (list Z)) : list (list Z) :=
  match inputs with
  | [] => chunks
  | input :: rest =>
      match pcm_bytes sampleRate input with
      | None => collect sampleRate rest chunks
      | Some pcm => collect sampleRate rest (chunks ++ [pcm])
      end
  end.

(** The body that [makePreview()] posts:
    [const totalLen = chunks.reduce((s, c) => s + c.byteLength, 0);
     const buf = new Uint8Array(totalLen);
     let o = 0; for (const c of chunks) { buf.set(c, o); o += c.byteLength; }] *)
Definition preview_body (sampleRate : float) (inputs : list (list float))
  : option (list Z) :=
  let chunks := collect sampleRate inputs [] in
  let totalLen := fold_left (fun s c => (s + length c)%nat) chunks 0%nat in
  Preview.concat_loop (repeat 0 totalLen) 0 chunks.

(** The chunk of one callback, if it returns. *)
Definition chunk_of (sampleRate : float) (input : list float)
  : list (list Z) :=
  match Resample.downsampleBuffer input sampleRate TARGET_SAMPLE_RATE with
  | Some down => [encoded down]
  | None => []
  end.

End Streamer.

(** * Theorems *)

(** ** Numbers and bytes *)

Section Numbers.

Import Js DataView.

Lemma Qlt_bool_true x y : Qlt_bool x y = true <-> (x < y)%Q.
Proof.
  unfold Qlt_bool. rewrite negb_true_iff. split; intros H.
  - apply Qnot_le_lt. intros Hle. apply Qle_bool_iff in Hle. congruence.
  - destruct (Qle_bool y x) eqn:E; [|reflexivity].
    apply Qle_bool_iff in E. exfalso. apply (Qlt_not_le _ _ H E).
Qed.

Lemma Qlt_bool_false x y : Qlt_bool x y = false <-> (y <= x)%Q.
Proof. unfold Qlt_bool. rewrite negb_false_iff. apply Qle_bool_iff. Qed.

Lemma truncate_range (q : Q) (lo hi : Z) :
  lo <= 0 <= hi ->
  (inject_Z lo <= q <= inject_Z hi)%Q ->
  lo <= truncate q <= hi.
Proof.
  intros Hz [Hlo Hhi]. destruct q as [n d].
  unfold truncate, Qle in *. simpl in *.
  Z.to_euclidean_division_equations. nia.
Qed.

Lemma truncate_Z z : truncate (inject_Z z) = z.
Proof. unfold truncate. cbn. apply Z.quot_1_r. Qed.

Lemma wrap16_id z : -32768 <= z <= 32767 -> wrap16 z = z.
Proof.
  intros H. unfold wrap16.
  destruct (Z.leb_spec 32768 (z mod 65536)) as [Hm|Hm];
    Z.to_euclidean_division_equations; lia.
Qed.

Lemma wrap16_range z : -32768 <= wrap16 z <= 32767.
Proof.
  unfold wrap16.
  destruct (Z.leb_spec 32768 (z mod 65536)) as [Hm|Hm];
    Z.to_euclidean_division_equations; lia.
Qed.

Lemma ToInt16_range x : -32768 <= ToInt16 x <= 32767.
Proof. destruct x; cbn [ToInt16]; [lia | lia | apply wrap16_range]. Qed.

Lemma ToInt16_of_Z z : ToInt16 (of_Z z) = wrap16 z.
Proof. unfold of_Z. cbn [ToInt16]. rewrite truncate_Z. reflexivity. Qed.

Lemma le_value_le_bytes n : forall v,
  le_value (le_bytes n v) = v mod 256 ^ Z.of_nat n.
Proof.
  induction n as [|n IH]; intros v.
  - cbn. rewrite Z.mod_1_r. reflexivity.
  - cbn [le_bytes le_value].
    rewrite IH, Nat2Z.inj_succ, Z.pow_succ_r by lia.
    rewrite Z.rem_mul_r by lia. lia.
Qed.

Lemma length_sample_bytes v : length (sample_bytes v) = 2%nat.
Proof. reflexivity. Qed.

(** The two bytes of a sample read back give the sample. *)
Lemma samples_of_sample_bytes v rest :
  samples_of_bytes (sample_bytes v ++ rest)
  = ToInt16 v :: samples_of_bytes rest.
Proof.
  unfold sample_bytes. cbn [le_bytes app samples_of_bytes]. f_equal.
  pose proof (ToInt16_range v) as Hr. revert Hr.
  generalize (ToInt16 v). intros z Hz. unfold ToUint16, wrap16.
  match goal with
  | |- (if 32768 <=? ?m then _ else _) = _ =>
      destruct (Z.leb_spec 32768 m)
  end; Z.to_euclidean_division_equations; lia.
Qed.

Lemma samples_of_flat_map {A : Type} (f : A -> number) (l : list A) :
  samples_of_bytes (flat_map (fun x => sample_bytes (f x)) l)
  = map (fun x => ToInt16 (f x)) l.
Proof.
  induction l as [|x l IH]; [reflexivity|].
  cbn [flat_map map]. rewrite samples_of_sample_bytes, IH. reflexivity.
Qed.

Lemma length_flat_sample_bytes {A : Type} (f : A -> number) (l : list A) :
  length (flat_map (fun x => sample_bytes (f x)) l) = (2 * length l)%nat.
Proof.
  induction l as [|x l IH]; [reflexivity|].
  cbn [flat_map length]. rewrite length_app, IH, length_sample_bytes. lia.
Qed.

(** A write over a run of the same length replaces that run. *)
Lemma write_bytes_at (pre old post bs : list Z) :
  length old = length bs ->
  write_bytes (pre ++ old ++ post) (length pre) bs = Some (pre ++ bs ++ post).
Proof.
  intros Hlen. unfold write_bytes.
  assert (Hfit : (length pre + length bs <=? length (pre ++ old ++ post))%nat
                 = true).
  { apply Nat.leb_le. rewrite !length_app. lia. }
  rewrite Hfit. f_equal.
  rewrite firstn_app, firstn_all, Nat.sub_diag. cbn [firstn].
  rewrite app_nil_r. f_equal. f_equal.
  rewrite skipn_app, skipn_all2 by lia.
  replace (length pre + length bs - length pre)%nat with (length old) by lia.
  rewrite skipn_app, skipn_all, Nat.sub_diag. reflexivity.
Qed.

(** Samples written one after the other into a zeroed tail fill it. *)
Lemma setInt16_next (pre : list Z) (v : number) (m : nat) :
  setInt16 (pre ++ repeat 0 (S m * 2)) (length pre) v
  = Some ((pre ++ sample_bytes v) ++ repeat 0 (m * 2)).
Proof.
  unfold setInt16. cbn [Nat.mul Nat.add repeat].
  change (pre ++ 0 :: 0 :: repeat 0 (m * 2))
    with (pre ++ [0; 0] ++ repeat 0 (m * 2)).
  rewrite write_bytes_at by reflexivity.
  rewrite <- app_assoc. reflexivity.
Qed.

End Numbers.

(** ** The sample conversions *)

Section Conversions.

Import Js DataView Pcm.

Lemma sample_to_number_fin q : sample_to_number (Fin q) = Fin (scaled q).
Proof.
  unfold sample_to_number, scaled, clamp, Math_min, Math_max, of_Z.
  cbn [num_lt].
  destruct (Qlt_bool q (inject_Z 1)); cbn [num_lt];
    [destruct (Qlt_bool (inject_Z (-1)) q) | ]; cbn [num_lt num_mul];
    match goal with
    | |- context [Qlt_bool ?a ?b] => destruct (Qlt_bool a b); reflexivity
    | _ => reflexivity
    end.
Qed.

Lemma clamp_bounds q : (inject_Z (-1) <= clamp q <= inject_Z 1)%Q.
Proof.
  unfold clamp.
  destruct (Qlt_bool q (inject_Z 1)) eqn:E1.
  - apply Qlt_bool_true in E1.
    destruct (Qlt_bool (inject_Z (-1)) q) eqn:E2.
    + apply Qlt_bool_true in E2. split; apply Qlt_le_weak; assumption.
    + split; [apply Qle_refl | discriminate].
  - cbn. split; discriminate.
Qed.

Lemma clamp_below q : (q < inject_Z (-1))%Q -> clamp q = inject_Z (-1).
Proof.
  intros H. unfold clamp.
  assert (E1 : Qlt_bool q (inject_Z 1) = true).
  { apply Qlt_bool_true. eapply Qlt_trans; [exact H | reflexivity]. }
  rewrite E1.
  assert (E2 : Qlt_bool (inject_Z (-1)) q = false).
  { apply Qlt_bool_false. apply Qlt_le_weak, H. }
  rewrite E2. reflexivity.
Qed.

Lemma clamp_above q : (inject_Z 1 < q)%Q -> clamp q = inject_Z 1.
Proof.
  intros H. unfold clamp.
  assert (E1 : Qlt_bool q (inject_Z 1) = false).
  { apply Qlt_bool_false. apply Qlt_le_weak, H. }
  rewrite E1. reflexivity.
Qed.

(** The product stays inside the 16-bit range: the store has nothing to
    wrap. *)
Lemma scaled_bounds q : (inject_Z (-32768) <= scaled q <= inject_Z 32767)%Q.
Proof.
  unfold scaled. pose proof (clamp_bounds q) as [Hlo Hhi].
  destruct (Qlt_bool (clamp q) (inject_Z 0)) eqn:E.
  - apply Qlt_bool_true in E. revert Hlo Hhi E.
    destruct (clamp q) as [n d]. unfold Qle, Qlt. cbn. intros. split; lia.
  - apply Qlt_bool_false in E. revert Hlo Hhi E.
    destruct (clamp q) as [n d]. unfold Qle, Qlt. cbn. intros. split; lia.
Qed.

Lemma sample_to_int16_fin q : sample_to_int16 (Fin q) = truncate (scaled q).
Proof.
  unfold sample_to_int16. rewrite sample_to_number_fin. cbn [ToInt16].
  apply wrap16_id. apply truncate_range; [lia | apply scaled_bounds].
Qed.

Lemma sample_to_int16_range x : is_int16 (sample_to_int16 x).
Proof. apply ToInt16_range. Qed.

Lemma sample_below x :
  num_lt x (of_Z (-1)) = true -> sample_to_int16 x = -32768.
Proof.
  destruct x as [| neg | q]; cbn [num_lt of_Z]; intros H.
  - discriminate.
  - subst neg. reflexivity.
  - apply Qlt_bool_true in H. rewrite sample_to_int16_fin.
    unfold scaled. rewrite (clamp_below q H). reflexivity.
Qed.

Lemma sample_above x :
  num_lt (of_Z 1) x = true -> sample_to_int16 x = 32767.
Proof.
  destruct x as [| neg | q]; cbn [num_lt of_Z]; intros H.
  - discriminate.
  - destruct neg; [discriminate | reflexivity].
  - apply Qlt_bool_true in H. rewrite sample_to_int16_fin.
    unfold scaled. rewrite (clamp_above q H). reflexivity.
Qed.

Lemma pcm_loop_fill rest : forall pre i,
  length pre = (i * 2)%nat ->
  pcm_loop (pre ++ repeat 0 (length rest * 2)) i rest
  = Some (pre ++ flat_map (fun x => sample_bytes (sample_to_number x)) rest).
Proof.
  induction rest as [|x rest IH]; intros pre i Hpre.
  - cbn. reflexivity.
  - cbn [pcm_loop length flat_map]. rewrite <- Hpre, setInt16_next.
    cbn [bind]. rewrite IH, <- app_assoc; [reflexivity|].
    rewrite length_app, length_sample_bytes. lia.
Qed.

Lemma floatTo16BitPCM_bytes float32Array :
  floatTo16BitPCM float32Array
  = Some (flat_map (fun x => sample_bytes (sample_to_number x)) float32Array).
Proof.
  unfold floatTo16BitPCM.
  apply (pcm_loop_fill float32Array [] 0%nat). reflexivity.
Qed.

(** C4.  [floatToInt16] clips instead of overflowing: it keeps the
    length, every output sample lies in [-32768, 32767], a sample below
    -1 (minus infinity included) becomes -32768 and a sample above 1
    (plus infinity included) becomes 32767; [floatTo16BitPCM] writes the
    same samples, as little-endian bytes. *)
Theorem floatToInt16_clips (float32 : list number) :
  length (floatToInt16 float32) = length float32
  /\ Int16Array_ok (floatToInt16 float32)
  /\ (forall i x, nth_error float32 i = Some x ->
        num_lt x (of_Z (-1)) = true ->
        nth_error (floatToInt16 float32) i = Some (-32768))
  /\ (forall i x, nth_error float32 i = Some x ->
        num_lt (of_Z 1) x = true ->
        nth_error (floatToInt16 float32) i = Some 32767)
  /\ option_map samples_of_bytes (floatTo16BitPCM float32)
     = Some (floatToInt16 float32).
Proof.
  unfold floatToInt16. split; [apply length_map|].
  split; [apply Forall_map, Forall_forall; intros x _;
          apply sample_to_int16_range|].
  split; [|split].
  - intros i x Hi Hx. rewrite nth_error_map, Hi. cbn [option_map].
    rewrite (sample_below x Hx). reflexivity.
  - intros i x Hi Hx. rewrite nth_error_map, Hi. cbn [option_map].
    rewrite (sample_above x Hx). reflexivity.
  - rewrite floatTo16BitPCM_bytes. cbn [option_map].
    rewrite samples_of_flat_map. reflexivity.
Qed.

Lemma floatToInt16_clips_witness :
  nth_error (floatToInt16 [Fin (-3 # 2); Fin (1 # 4); Infinity false]) 0
  = Some (-32768)
  /\ nth_error (floatToInt16 [Fin (-3 # 2); Fin (1 # 4); Infinity false]) 2
     = Some 32767.
Proof.
  destruct (floatToInt16_clips [Fin (-3 # 2); Fin (1 # 4); Infinity false])
    as (_ & _ & Hlow & Hhigh & _).
  split.
  - apply (Hlow 0%nat (Fin (-3 # 2))); reflexivity.
  - apply (Hhigh 2%nat (Infinity false)); reflexivity.
Defined.

Example floatToInt16_ex :
  floatToInt16
    [Fin (1 # 2); Fin (-1 # 2); Fin 3; Fin (-3); NaN; Infinity false;
     Infinity true; Fin 0]
  = [16383; -16384; 32767; -32768; 0; 32767; -32768; 0]
  /\ floatTo16BitPCM [Fin (1 # 2); Fin (-1 # 2)] = Some [255; 63; 0; 192].
Proof. split; reflexivity. Qed.

Lemma roundtrip_map int16 :
  floatToInt16 (int16ToFloat32 int16) = map roundtrip_sample int16.
Proof.
  unfold floatToInt16, int16ToFloat32. rewrite map_map. reflexivity.
Qed.

Lemma roundtrip_sample_value x :
  is_int16 x -> roundtrip_sample x = if 0 <? x then x - 1 else x.
Proof.
  intros Hx. unfold is_int16 in Hx. unfold roundtrip_sample, of_Z.
  cbn [num_div]. change (Qeq_bool (inject_Z 32768) 0) with false. cbv iota.
  rewrite sample_to_int16_fin.
  destruct (Z.eq_dec x (-32768)) as [->|Hne]; [reflexivity|].
  set (q := (inject_Z x / inject_Z 32768)%Q).
  assert (Hq : q = (x * 1) # 32768) by reflexivity.
  assert (Hc : clamp q = q).
  { unfold clamp.
    assert (E1 : Qlt_bool q (inject_Z 1) = true).
    { apply Qlt_bool_true. rewrite Hq. unfold Qlt. cbn. lia. }
    rewrite E1.
    assert (E2 : Qlt_bool (inject_Z (-1)) q = true).
    { apply Qlt_bool_true. rewrite Hq. unfold Qlt. cbn. lia. }
    rewrite E2. reflexivity. }
  unfold scaled. rewrite Hc.
  destruct (Z.ltb_spec 0 x) as [Hpos|Hneg].
  - assert (E : Qlt_bool q (inject_Z 0) = false).
    { apply Qlt_bool_false. rewrite Hq. unfold Qle. cbn. lia. }
    rewrite E, Hq. unfold truncate. cbn.
    Z.to_euclidean_division_equations. lia.
  - destruct (Z.eq_dec x 0) as [->|Hnz]; [reflexivity|].
    assert (E : Qlt_bool q (inject_Z 0) = true).
    { apply Qlt_bool_true. rewrite Hq. unfold Qlt. cbn. lia. }
    rewrite E, Hq. unfold truncate. cbn.
    Z.to_euclidean_division_equations. lia.
Qed.

(** C8, as the code has it.  For every [Int16Array], [int16ToFloat32]
    followed by [floatToInt16] keeps the length, returns a sample that is
    negative or zero unchanged, and returns a positive sample [x] as
    [x - 1]: the way back scales positive values by 0x7fff, not 0x8000. *)
Theorem roundtrip_lowers_positive (int16 : list Z) :
  Pcm.Int16Array_ok int16 ->
  floatToInt16 (int16ToFloat32 int16)
  = map (fun x => if 0 <? x then x - 1 else x) int16.
Proof.
  intros H. rewrite roundtrip_map. apply map_ext_in.
  intros x Hin. apply roundtrip_sample_value.
  unfold Int16Array_ok in H. rewrite Forall_forall in H. auto.
Qed.

Lemma roundtrip_lowers_positive_witness :
  Pcm.Int16Array_ok [-32768; -5; 0; 7; 32767]
  /\ floatToInt16 (int16ToFloat32 [-32768; -5; 0; 7; 32767])
     = [-32768; -5; 0; 6; 32766].
Proof.
  assert (H : Pcm.Int16Array_ok [-32768; -5; 0; 7; 32767]).
  { repeat constructor; unfold is_int16; lia. }
  split; [exact H|].
  exact (roundtrip_lowers_positive [-32768; -5; 0; 7; 32767] H).
Defined.

(** C8 fails as stated: the one-sample array [1] comes back as [0]. *)
Lemma roundtrip_not_identity :
  Pcm.Int16Array_ok [1]
  /\ floatToInt16 (int16ToFloat32 [1]) = [0]
  /\ floatToInt16 (int16ToFloat32 [1]) <> [1].
Proof.
  split; [repeat constructor; unfold is_int16; lia|].
  split; [reflexivity | discriminate].
Qed.

End Conversions.

(** ** The frame accumulator *)

Section FrameAccumulator.

Import Js Pcm Hook.

(** One pass of the [while] loop cuts whole frames from the front of the
    accumulator, in order, and leaves a rest shorter than a frame. *)
Lemma drain_cuts accum out :
  exists frames,
    snd (drain accum out) = out ++ map floatToInt16 frames
    /\ concat frames ++ fst (drain accum out) = accum
    /\ Forall full_frame frames
    /\ (length (fst (drain accum out)) < FRAME_SAMPLES)%nat.
Proof.
  funelim (drain accum out).
  - destruct H as (frames & Hsnd & Hcat & Hfull & Hlen).
    exists (firstn FRAME_SAMPLES accum :: frames).
    clear Heqcall. split; [|split; [|split]].
    + rewrite Hsnd, <- app_assoc. reflexivity.
    + cbn [concat]. rewrite <- app_assoc, Hcat. apply firstn_skipn.
    + constructor; [|exact Hfull].
      unfold full_frame. rewrite length_firstn. lia.
    + exact Hlen.
  - exists []. cbn [map concat fst snd app]. rewrite app_nil_r.
    split; [|split; [|split]]; auto.
Qed.

Lemma onaudioprocess_ws state input h :
  wsRef (onaudioprocess state input h) = wsRef h.
Proof.
  unfold onaudioprocess. destruct (wsRef h) eqn:E; [|exact E].
  destruct (negb (is_open state)); [exact E|].
  destruct (drain _ _). exact E.
Qed.

Lemma accumulated_step P state input h :
  accumulated P h ->
  accumulated (P ++ pushed (wsRef h) [(state, input)])
    (onaudioprocess state input h).
Proof.
  intros (frames & Hsent & Hcat & Hfull & Hlen).
  unfold onaudioprocess, pushed. destruct (wsRef h) as [ws|].
  2:{ rewrite app_nil_r. exists frames. auto. }
  cbn [flat_map fst snd]. rewrite app_nil_r.
  destruct (is_open state); cbn [negb].
  2:{ rewrite app_nil_r. exists frames. auto. }
  destruct (drain_cuts (accumRef h ++ input) (sent h))
    as (more & Hsnd & Hcat' & Hfull' & Hlen').
  destruct (drain (accumRef h ++ input) (sent h)) as [accum' out].
  cbn [fst snd] in *. exists (frames ++ more).
  cbn [sent accumRef with_accum].
  split; [|split; [|split]].
  - rewrite Hsnd, Hsent, map_app. reflexivity.
  - rewrite concat_app, <- app_assoc, Hcat', app_assoc, Hcat. reflexivity.
  - apply Forall_app. split; assumption.
  - exact Hlen'.
Qed.

Lemma pushed_cons ws ev evs :
  pushed ws (ev :: evs) = pushed ws [ev] ++ pushed ws evs.
Proof.
  unfold pushed. destruct ws; [|reflexivity].
  cbn [flat_map]. rewrite app_nil_r. reflexivity.
Qed.

Lemma accumulated_run evs : forall P h,
  accumulated P h ->
  accumulated (P ++ pushed (wsRef h) evs) (audio_run evs h).
Proof.
  induction evs as [|[state input] evs IH]; intros P h Hacc.
  - cbn [audio_run]. unfold pushed. destruct (wsRef h); cbn;
      rewrite app_nil_r; exact Hacc.
  - cbn [audio_run]. rewrite pushed_cons, app_assoc.
    rewrite <- (onaudioprocess_ws state input h) at 2.
    apply IH. apply accumulated_step. exact Hacc.
Qed.

Lemma accumulated_reset h : accumulated [] (with_accum h [] []).
Proof.
  exists []. cbn [sent accumRef with_accum map concat app length].
  split; [|split; [|split]]; auto.
  unfold FRAME_SAMPLES; lia.
Qed.

Lemma full_concat_length frames :
  Forall full_frame frames ->
  length (concat frames) = (length frames * FRAME_SAMPLES)%nat.
Proof.
  induction 1 as [|f fs Hf _ IH]; [reflexivity|].
  cbn [concat length]. rewrite length_app, IH, Hf. lia.
Qed.

(** C1.  From an empty accumulator and a socket on which nothing was sent
    yet, after any run of audio events: every frame sent has exactly
    [FRAME_SAMPLES] = 320 = 16000 * 20 / 1000 samples, fewer than 320
    samples stay in the accumulator, and the samples pushed are exactly
    those of the frames sent plus those kept. *)
Theorem accumulator_frames_exact
  (h : Hook.hook) (evs : list (Hook.readyState * list number)) :
  let h' := audio_run evs (with_accum h [] []) in
  Forall (fun frame => length frame = FRAME_SAMPLES) (sent h')
  /\ (length (accumRef h') < FRAME_SAMPLES)%nat
  /\ length (pushed (wsRef h) evs)
     = (length (sent h') * FRAME_SAMPLES + length (accumRef h'))%nat
  /\ Z.of_nat FRAME_SAMPLES = start_sample_rate * start_frame_size_ms / 1000
  /\ FRAME_SAMPLES = 320%nat.
Proof.
  intros h'.
  destruct (accumulated_run evs [] _ (accumulated_reset h))
    as (frames & Hsent & Hcat & Hfull & Hlen).
  fold h' in Hsent, Hcat, Hlen. cbn [app wsRef with_accum] in Hcat.
  split; [|split; [|split; [|split]]].
  - rewrite Hsent. apply Forall_map.
    eapply Forall_impl; [|exact Hfull]. intros f Hf.
    unfold floatToInt16. rewrite length_map. exact Hf.
  - exact Hlen.
  - rewrite <- Hcat, length_app, (full_concat_length _ Hfull), Hsent,
      length_map. reflexivity.
  - reflexivity.
  - reflexivity.
Qed.


Example accumulator_run_ex :
  let h := audio_run
             [(OPEN, repeat (Fin 1) 300); (CONNECTING, repeat (Fin 0) 50);
              (OPEN, repeat (Fin (-1)) 400)] running_hook in
  map (@length Z) (sent h) = [320%nat; 320%nat]
  /\ length (accumRef h) = 60%nat.
Proof. vm_compute. split; reflexivity. Qed.

End FrameAccumulator.

(** ** The playback queue *)

Section PlaybackQueue.

Import Js Pcm Hook.

Lemma nonempty_chunks_app a b :
  nonempty_chunks (a ++ b) = nonempty_chunks a ++ nonempty_chunks b.
Proof. apply filter_app. Qed.

Lemma schedule_while_fifo now rate queue : forall scheduled next st,
  let r := schedule_while now rate queue scheduled next st in
  map fst (snd r) ++ nonempty_chunks (fst (fst r))
  = map fst st ++ nonempty_chunks queue.
Proof.
  induction queue as [|pcm16 rest IH]; intros scheduled next st; cbn zeta.
  - reflexivity.
  - cbn [schedule_while]. destruct (scheduled <? 10)%nat; [|reflexivity].
    destruct pcm16 as [|x xs]; cbn [chunk_empty].
    + rewrite IH. reflexivity.
    + rewrite IH, map_app, <- app_assoc. reflexivity.
Qed.

Lemma scheduleLoop_order now h :
  playback_order (scheduleLoop now h) = playback_order h.
Proof.
  unfold scheduleLoop. destruct (ctxRef h) as [ctx|]; [|reflexivity].
  pose proof (schedule_while_fifo now (sampleRate ctx) (recvQueueRef h) 0
                (nextPlayTimeRef h) (started h)) as H.
  cbn zeta in H.
  destruct (schedule_while _ _ _ _ _ _) as [[queue next] st].
  cbn [fst snd] in H. unfold playback_order at 2. rewrite <- H.
  destruct queue; reflexivity.
Qed.

Lemma enqueue_order now pcm16 h :
  playback_order (enqueue now pcm16 h)
  = playback_order h ++ nonempty_chunks [pcm16].
Proof.
  unfold enqueue.
  set (h1 := with_enhanced _ _).
  assert (H1 : playback_order h1
               = playback_order h ++ nonempty_chunks [pcm16]).
  { unfold playback_order, h1.
    cbn [started recvQueueRef with_enhanced with_playback].
    rewrite nonempty_chunks_app, app_assoc. reflexivity. }
  destruct (negb (isPlayingRef h1) && _); [|exact H1].
  destruct (ctxRef h1) as [ctx|] eqn:E; [|exact H1].
  rewrite scheduleLoop_order. exact H1.
Qed.

Lemma fire_order now h : playback_order (fire now h) = playback_order h.
Proof.
  unfold fire. destruct (timers h) as [|t ts]; [reflexivity|].
  destruct t.
  - rewrite scheduleLoop_order. reflexivity.
  - cbn [recvQueueRef with_playback].
    destruct (recvQueueRef h) eqn:E.
    + unfold playback_order. cbn [started recvQueueRef with_playback].
      rewrite E. reflexivity.
    + rewrite scheduleLoop_order. unfold playback_order.
      cbn [started recvQueueRef with_playback]. rewrite E. reflexivity.
Qed.

Lemma playback_run_order evs : forall h,
  playback_order (playback_run evs h)
  = playback_order h ++ nonempty_chunks (enqueued evs).
Proof.
  induction evs as [|e evs IH]; intros h.
  - cbn. rewrite app_nil_r. reflexivity.
  - unfold playback_run in *. cbn [fold_left]. rewrite IH.
    destruct e as [now pcm16 | now]; cbn [playback_step enqueued].
    + rewrite enqueue_order, <- app_assoc.
      rewrite <- nonempty_chunks_app. reflexivity.
    + rewrite fire_order. reflexivity.
Qed.

(** The queue is first in, first out: whatever the run of arrivals and
    timers, the chunks handed to [src.start], in the order of the calls,
    followed by the chunks still queued, are the non-empty chunks in
    their order of arrival. *)
Lemma playback_queue_fifo (h : Hook.hook) (evs : list Hook.playback_event) :
  let h' := playback_run evs h in
  map fst (started h') ++ nonempty_chunks (recvQueueRef h')
  = map fst (started h) ++ nonempty_chunks (recvQueueRef h ++ enqueued evs).
Proof.
  intros h'. pose proof (playback_run_order evs h) as H.
  unfold playback_order in H. fold h' in H. rewrite H.
  rewrite nonempty_chunks_app, app_assoc. reflexivity.
Qed.

(** C5, where the code departs from it.  Twelve frames arrive in two
    bursts.  [src.start] is called on them in their order of arrival, but
    the second burst restarts playback, [enqueue] sets [nextPlayTime] back
    to [currentTime + 0.05], and frame 7 is given the start time 0.08
    while frame 3, received before it, only starts at 0.09. *)
Theorem playback_restart_overtakes :
  let h := Hook.playback_run Hook.two_bursts Hook.running_hook in
  map fst (started h) = map frame_of [1; 2; 3; 4; 5; 6; 7; 8; 9; 10; 11; 12]
  /\ exists t3 t7,
       nth_error (started h) 2 = Some (frame_of 3, t3)
       /\ nth_error (started h) 6 = Some (frame_of 7, t7)
       /\ (t3 == 9 # 100)%Q /\ (t7 == 8 # 100)%Q /\ (t7 < t3)%Q.
Proof.
  cbn zeta. split; [vm_compute; reflexivity|].
  eexists. eexists.
  split; [vm_compute; reflexivity|].
  split; [vm_compute; reflexivity|].
  split; [vm_compute; reflexivity|].
  split; vm_compute; reflexivity.
Qed.

End PlaybackQueue.

(** ** Teardown *)

Section Teardown.

Import Hook.


(** The close event of the socket that [stop()] closed leaves the status
    alone. *)
Lemma stop_then_close throws h :
  statusSt (ws_onclose (stop throws h)) = idle.
Proof. reflexivity. Qed.

(** A timer of the scheduler that fires after [stop()] starts nothing. *)
Lemma stop_then_fire throws now h :
  let h' := fire now (stop throws h) in
  started h' = started h /\ ctxRef h' = None /\ isPlayingRef h' = false.
Proof.
  cbn zeta. unfold fire. cbn [timers stop].
  destruct (timers h) as [|t ts]; [cbn; auto|].
  destruct t; cbn; [auto|]. destruct (recvQueueRef h); cbn; auto.
Qed.

(** When no call raises, each object held is released once, in the order
    of the code. *)
Lemma stop_calls ws proc source stream ctx h :
  wsRef h = Some ws -> procRef h = Some proc -> sourceRef h = Some source ->
  streamRef h = Some stream -> ctxRef h = Some ctx ->
  released (stop (fun _ => false) h)
  = released h ++ [WsClose ws; ProcDisconnect proc; SourceDisconnect source;
                   TracksStop stream; CtxClose ctx].
Proof.
  intros Hws Hproc Hsource Hstream Hctx.
  unfold stop. cbn [released]. rewrite Hws, Hproc, Hsource, Hstream, Hctx.
  cbn [option_map attempt]. rewrite <- !app_assoc. reflexivity.
Qed.

End Teardown.

(** ** The WAV writer *)

Section WavWriter.

Import Js DataView Pcm Wav.

Lemma write_samples_fill pcm16 : forall pre,
  write_samples (pre ++ repeat 0 (length pcm16 * 2)) (length pre) pcm16
  = Some (pre ++ flat_map (fun x => sample_bytes (of_Z x)) pcm16).
Proof.
  induction pcm16 as [|x rest IH]; intros pre.
  - cbn. reflexivity.
  - cbn [write_samples length flat_map]. rewrite setInt16_next.
    cbn [bind].
    replace (length pre + 2)%nat with (length (pre ++ sample_bytes (of_Z x)))
      by (rewrite length_app; reflexivity).
    rewrite IH, <- app_assoc. reflexivity.
Qed.

(** The blob is the header followed by the samples, two bytes each. *)
Lemma pcm16ToWavBlob_bytes pcm16 sampleRate numChannels :
  pcm16ToWavBlob pcm16 sampleRate numChannels
  = Some {| blob_bytes :=
              header (length pcm16) sampleRate numChannels
              ++ flat_map (fun x => sample_bytes (of_Z x)) pcm16;
            blob_type := "audio/wav" |}.
Proof.
  unfold pcm16ToWavBlob.
  cbn -[ToUint32 ToUint16 ToUint8 write_samples Z.modulo Z.div Z.mul Z.add].
  match goal with
  | |- context [write_samples ?b _ _] =>
      change b with (header (length pcm16) sampleRate numChannels
                     ++ repeat 0 (length pcm16 * 2))
  end.
  change 44%nat with (length (header (length pcm16) sampleRate numChannels)).
  rewrite write_samples_fill. reflexivity.
Qed.

(** The header fields and the data section, read back: the 32-bit fields
    hold their value modulo 2^32. *)
Lemma header_fields n sampleRate numChannels data :
  let bytes := header n sampleRate numChannels ++ data in
  getUint32 bytes 40 = ToUint32 (Z.of_nat n * 2)
  /\ getUint32 bytes 28 = ToUint32 (sampleRate * (numChannels * 2))
  /\ getUint16 bytes 34 = 16
  /\ skipn 44 bytes = data.
Proof.
  cbn zeta. unfold getUint32, getUint16.
  split; [|split; [|split]].
  - change (firstn 4 (skipn 40 (header n sampleRate numChannels ++ data)))
      with (le_bytes 4 (ToUint32 (Z.of_nat n * 2))).
    rewrite le_value_le_bytes. unfold ToUint32. apply Z.mod_mod. lia.
  - change (firstn 4 (skipn 28 (header n sampleRate numChannels ++ data)))
      with (le_bytes 4 (ToUint32 (sampleRate * (numChannels * 2)))).
    rewrite le_value_le_bytes. unfold ToUint32. apply Z.mod_mod. lia.
  - reflexivity.
  - reflexivity.
Qed.

Lemma samples_of_data pcm16 :
  Int16Array_ok pcm16 ->
  samples_of_bytes (flat_map (fun x => sample_bytes (of_Z x)) pcm16) = pcm16.
Proof.
  intros Hok. rewrite samples_of_flat_map.
  rewrite <- (map_id pcm16) at 2. apply map_ext_in. intros x Hin.
  rewrite ToInt16_of_Z. apply wrap16_id.
  unfold Int16Array_ok in Hok. rewrite Forall_forall in Hok. apply Hok, Hin.
Qed.

(** C9, as the code has it.  For an [Int16Array] of [n] samples whose
    data size [2 * n] and whose byte rate [sampleRate * numChannels * 2]
    fit the unsigned 32-bit fields of the header, [pcm16ToWavBlob] returns
    a blob of exactly [44 + 2 * n] bytes; its header records the data
    size [2 * n], the byte rate [sampleRate * numChannels * 2] and 16 bits
    per sample; its data section holds the [n] samples, little-endian, in
    order. *)
Theorem wav_blob_layout (pcm16 : list Z) (sampleRate numChannels : Z) :
  Pcm.Int16Array_ok pcm16 ->
  Z.of_nat (length pcm16) * 2 < 4294967296 ->
  0 <= sampleRate * numChannels * 2 < 4294967296 ->
  exists blob,
    Wav.pcm16ToWavBlob pcm16 sampleRate numChannels = Some blob
    /\ length (blob_bytes blob) = (44 + 2 * length pcm16)%nat
    /\ getUint32 (blob_bytes blob) 40 = Z.of_nat (length pcm16) * 2
    /\ getUint32 (blob_bytes blob) 28 = sampleRate * numChannels * 2
    /\ getUint16 (blob_bytes blob) 34 = 16
    /\ samples_of_bytes (skipn 44 (blob_bytes blob)) = pcm16.
Proof.
  intros Hok Hsize Hrate. eexists.
  split; [apply pcm16ToWavBlob_bytes|]. cbn [blob_bytes].
  destruct (header_fields (length pcm16) sampleRate numChannels
              (flat_map (fun x => sample_bytes (of_Z x)) pcm16))
    as (Hdata & Hbyte & Hbits & Hskip).
  split; [|split; [|split; [|split]]].
  - rewrite length_app, length_flat_sample_bytes. reflexivity.
  - rewrite Hdata. unfold ToUint32. apply Z.mod_small. lia.
  - rewrite Hbyte. unfold ToUint32.
    replace (sampleRate * (numChannels * 2))
      with (sampleRate * numChannels * 2) by ring.
    apply Z.mod_small. lia.
  - exact Hbits.
  - rewrite Hskip. apply samples_of_data, Hok.
Qed.

Lemma wav_blob_layout_witness :
  exists blob,
    Wav.pcm16ToWavBlob [1; -2; 32767; -32768] 16000 1 = Some blob
    /\ length (blob_bytes blob) = 52%nat
    /\ getUint32 (blob_bytes blob) 40 = 8
    /\ getUint32 (blob_bytes blob) 28 = 32000
    /\ getUint16 (blob_bytes blob) 34 = 16
    /\ samples_of_bytes (skipn 44 (blob_bytes blob))
       = [1; -2; 32767; -32768].
Proof.
  apply (wav_blob_layout [1; -2; 32767; -32768] 16000 1).
  - repeat constructor; unfold is_int16; lia.
  - vm_compute. reflexivity.
  - split; vm_compute; [discriminate | reflexivity].
Defined.

(** C9 fails as stated: at a sample rate of 2^31 the byte rate 2^32 does
    not fit its field, and the header records 0. *)
Lemma wav_byte_rate_wraps :
  exists blob,
    Wav.pcm16ToWavBlob [] 2147483648 1 = Some blob
    /\ getUint32 (blob_bytes blob) 28 = 0
    /\ getUint32 (blob_bytes blob) 28 <> 2147483648 * 1 * 2.
Proof.
  eexists. split; [vm_compute; reflexivity|].
  split; [vm_compute; reflexivity | vm_compute; discriminate].
Qed.

End WavWriter.

(** ** The downsampler *)

Section Downsampler.

Import SpecFloat Js Ieee754 Resample.

Lemma Math_round_Z z : Js.Math_round (inject_Z z) = z.
Proof.
  unfold Js.Math_round, Qfloor. cbn.
  Z.to_euclidean_division_equations. lia.
Qed.

Lemma Math_round_mono x y :
  (x <= y)%Q -> Js.Math_round x <= Js.Math_round y.
Proof.
  intros H. unfold Js.Math_round. apply Qfloor_resp_le.
  apply Qplus_le_compat; [exact H | apply Qle_refl].
Qed.

Lemma Math_round_nonneg x : (0 <= x)%Q -> 0 <= Js.Math_round x.
Proof.
  intros H. rewrite <- (Math_round_Z 0). apply Math_round_mono. exact H.
Qed.

Lemma Math_round_nonpos x : (x <= 0)%Q -> Js.Math_round x <= 0.
Proof.
  intros H. rewrite <- (Math_round_Z 0). apply Math_round_mono. exact H.
Qed.

(** *** Signs *)

Lemma value_sign m e :
  (0 <= value false m e)%Q /\ (value true m e <= 0)%Q.
Proof.
  assert (H : (0 <= inject_Z (Zpos m) * Qpower 2 e)%Q).
  { apply Qmult_le_0_compat; [discriminate|].
    apply Qpower_0_le. discriminate. }
  unfold value. cbv zeta. split; [exact H|].
  apply (Qopp_le_compat 0) in H. exact H.
Qed.

Lemma binary_round_aux_signed prec emax s m e l :
  signed s (binary_round_aux prec emax s m e l).
Proof.
  unfold binary_round_aux.
  destruct (shr_fexp prec emax m e l) as [mrs' e'].
  destruct (shr_fexp prec emax _ e' loc_Exact) as [mrs'' e''].
  destruct (shr_m mrs''); [reflexivity| |exact I].
  destruct (e'' <=? emax - prec); reflexivity.
Qed.

Lemma binary_round_signed prec emax s m e :
  signed s (binary_round prec emax s m e).
Proof.
  unfold binary_round. destruct (shl_align _ _ _) as [mz ez].
  apply binary_round_aux_signed.
Qed.

Lemma of_Z_signed z : 0 <= z -> signed false (of_Z z).
Proof.
  intros H. destruct z as [|p|p]; [reflexivity| |lia].
  apply binary_round_signed.
Qed.

Lemma mul_signed x y :
  signed false x -> signed false y -> signed false (mul x y).
Proof.
  destruct x as [sx|sx| |sx mx ex], y as [sy|sy| |sy my ey];
    cbn [signed]; intros Hx Hy; subst; try exact I; try reflexivity.
  apply binary_round_aux_signed.
Qed.

Lemma Math_round_forward x : signed false x -> forward (Math_round x).
Proof.
  destruct x as [s|s| |s m e]; cbn [signed Math_round forward]; intros H;
    subst; try lia; try reflexivity; try exact I.
  apply Math_round_nonneg, value_sign.
Qed.

Lemma offset_forward ratio k : signed false ratio -> forward (offset ratio k).
Proof.
  intros H. destruct k as [|k]; [cbn; lia|].
  unfold offset. apply Math_round_forward, mul_signed; [|exact H].
  apply of_Z_signed. lia.
Qed.

(** A result of one sample or more is only asked for at a positive
    ratio. *)
Lemma ratio_signed n ratio L :
  0 <= n -> Math_round (div (of_Z n) ratio) = RInt L -> 1 <= L ->
  signed false ratio.
Proof.
  intros Hn HL H1. pose proof (of_Z_signed n Hn) as Hx.
  destruct (of_Z n) as [sx|sx| |sx mx ex], ratio as [sy|sy| |sy my ey];
    cbn [signed] in *; subst; try exact I;
    try (cbn in HL; congruence);
    try (cbn in HL; injection HL as HL; lia).
  unfold div, SFdiv in HL.
  destruct (SFdiv_core_binary _ _ _ _ _ _) as [[mz ez] lz].
  pose proof (binary_round_aux_signed prec64 emax64 (xorb false sy) mz ez lz)
    as Hs.
  destruct (binary_round_aux _ _ _ _ _ _) as [s|s| |s m e];
    cbn [signed Math_round] in *; try congruence.
  - injection HL as HL. lia.
  - injection HL as HL. subst s. destruct sy; [|reflexivity].
    cbn [xorb] in HL.
    pose proof (Math_round_nonpos _ (proj2 (value_sign m e))). lia.
Qed.

(** *** The loops *)

Lemma skipn_index buffer i :
  0 <= i < Z.of_nat (length buffer) ->
  skipn (Z.to_nat i) buffer
  = index buffer i :: skipn (Z.to_nat (i + 1)) buffer.
Proof.
  intros Hi. unfold index. destruct (Z.ltb_spec i 0); [lia|].
  replace (Z.to_nat (i + 1)) with (S (Z.to_nat i)) by lia.
  assert (Hn : (Z.to_nat i < length buffer)%nat) by lia.
  clear - Hn. revert buffer Hn.
  induction (Z.to_nat i) as [|n IH]; intros [|b buffer] Hn; cbn in *;
    try lia; [reflexivity | apply IH; lia].
Qed.

(** The inner loop adds up the samples from [i] to the end of the
    segment, in order, and counts them. *)
Lemma mean_loop_slice buffer next i accum count :
  0 <= i ->
  mean_loop buffer next i accum count
  = (fold_left add (slice buffer (RInt i) next) accum,
     count + Z.of_nat (length (slice buffer (RInt i) next))).
Proof.
  funelim (mean_loop buffer next i accum count); intros Hi.
  - (* the segment is over *)
    assert (Hs : slice buffer (RInt i) nextOffsetBuffer = []).
    { destruct nextOffsetBuffer as [|[|]|b]; cbn in Heq |- *;
        try reflexivity; try discriminate.
      apply Z.ltb_ge in Heq.
      replace (Z.to_nat b - Z.to_nat i)%nat with 0%nat by lia.
      reflexivity. }
    rewrite Hs. cbn. f_equal. lia.
  - (* one more sample *)
    rewrite H by lia. clear H Heqcall.
    match goal with E : int_lt _ _ = true |- _ => rename E into Hlt end.
    assert (Hs : slice buffer (RInt i) nextOffsetBuffer
                 = index buffer i
                   :: slice buffer (RInt (i + 1)) nextOffsetBuffer).
    { destruct nextOffsetBuffer as [|[|]|b]; cbn in Hlt |- *;
        try discriminate.
      - apply skipn_index. lia.
      - apply Z.ltb_lt in Hlt. rewrite (skipn_index buffer i) by lia.
        replace (Z.to_nat b - Z.to_nat i)%nat
          with (S (Z.to_nat b - Z.to_nat (i + 1))) by lia.
        reflexivity. }
    rewrite Hs. cbn [fold_left length]. f_equal. lia.
  - (* the buffer is over *)
    assert (Hs : slice buffer (RInt i) nextOffsetBuffer = []).
    { destruct nextOffsetBuffer as [|[|]|b]; cbn; try reflexivity.
      - apply skipn_all2. lia.
      - rewrite skipn_all2 by lia. apply firstn_nil. }
    rewrite Hs. cbn. f_equal. lia.
Qed.

Lemma quotient_mean (l : list float) :
  quotient (fold_left add l zero, Z.of_nat (length l)) = mean l.
Proof.
  unfold quotient, mean, sum. cbn [fst snd].
  destruct l as [|x l]; [reflexivity|].
  cbn [length]. rewrite Nat2Z.inj_succ.
  destruct (Z.eqb_spec (Z.succ (Z.of_nat (length l))) 0); [lia|].
  reflexivity.
Qed.

(** From a bound that lies ahead the [for] loop ends, with the sum and
    the count of the samples of the segment. *)
Lemma for_loop_slice buffer next offsetBuffer :
  forward offsetBuffer ->
  for_loop buffer next offsetBuffer
  = Some (fold_left add (slice buffer offsetBuffer next) zero,
          Z.of_nat (length (slice buffer offsetBuffer next))).
Proof.
  intros H. destruct offsetBuffer as [|[|]|i]; cbn [forward] in H;
    try discriminate; try reflexivity.
  cbn [for_loop]. rewrite mean_loop_slice by exact H. reflexivity.
Qed.

Lemma length_store result : forall i v,
  length (store result i v) = length result.
Proof.
  induction result as [|x t IH]; intros [|i] v; cbn; try reflexivity.
  rewrite IH. reflexivity.
Qed.

Lemma firstn_store result : forall i v,
  (i < length result)%nat ->
  firstn (S i) (store result i v) = firstn i result ++ [v].
Proof.
  induction result as [|x t IH]; intros [|i] v Hi; cbn in Hi; try lia.
  - reflexivity.
  - cbn [store]. rewrite firstn_cons, IH by lia. reflexivity.
Qed.

Lemma next_offset_offset ratio offsetResult :
  0 <= offsetResult ->
  next_offset ratio offsetResult
  = offset ratio (Z.to_nat (offsetResult + 1)).
Proof.
  intros H. unfold next_offset, offset.
  destruct (Z.to_nat (offsetResult + 1)) as [|k] eqn:E; [lia|].
  rewrite <- E, Z2Nat.id by lia. reflexivity.
Qed.

(** The outer loop ends; it fills the result from [offsetResult] on,
    each place with the rounded mean of its segment, and leaves what is
    before it. *)
Lemma resample_loop_fill
  buffer ratio newLength offsetResult offsetBuffer result :
  signed false ratio ->
  0 <= offsetResult <= newLength ->
  length result = Z.to_nat newLength ->
  offsetBuffer = offset ratio (Z.to_nat offsetResult) ->
  resample_loop buffer ratio newLength offsetResult offsetBuffer result
  = Some (firstn (Z.to_nat offsetResult) result
          ++ map (output_sample buffer ratio)
               (seq (Z.to_nat offsetResult)
                  (Z.to_nat (newLength - offsetResult)))).
Proof.
  funelim (resample_loop buffer ratio newLength offsetResult offsetBuffer
             result);
    intros Hr Hk Hlen Hob.
  - (* the result is full *)
    replace (Z.to_nat (newLength - offsetResult)) with 0%nat by lia.
    cbn [seq map]. rewrite app_nil_r, firstn_all2 by lia. reflexivity.
  - (* one more output sample *)
    clear Heqcall.
    match goal with
    | E : for_loop _ _ _ = Some _ |- _ => rename E into Hfor
    end.
    rewrite for_loop_slice in Hfor
      by (subst offsetBuffer; apply offset_forward, Hr).
    injection Hfor as Hac. subst ac.
    rewrite H; try assumption; try lia.
    + rewrite quotient_mean, next_offset_offset by lia. subst offsetBuffer.
      replace (Z.to_nat (offsetResult + 1))
        with (S (Z.to_nat offsetResult)) by lia.
      rewrite firstn_store by lia.
      replace (Z.to_nat (newLength - offsetResult))
        with (S (Z.to_nat (newLength - (offsetResult + 1)))) by lia.
      cbn [seq map]. rewrite <- app_assoc. reflexivity.
    + rewrite length_store. exact Hlen.
    + apply next_offset_offset. lia.
  - (* the segment is always summed *)
    match goal with
    | E : for_loop _ _ _ = None |- _ => rename E into Hfor
    end.
    rewrite for_loop_slice in Hfor
      by (subst offsetBuffer; apply offset_forward, Hr).
    discriminate Hfor.
Qed.

Lemma Float32Array_new_length n (result : list float) :
  Float32Array_new (RInt n) = Some result ->
  0 <= n /\ result = repeat zero (Z.to_nat n).
Proof.
  cbn [Float32Array_new].
  destruct (Z.leb_spec 0 n) as [Hn|Hn]; [|discriminate].
  destruct (n <=? 9007199254740991); [|discriminate].
  cbn [andb]. intros H. injection H as H. auto.
Qed.

(** The call, when the rates differ: a [RangeError] when the length is
    refused, and else the rounded means of the segments. *)
Lemma downsampleBuffer_fill buffer sampleRate outRate :
  strict_eq outRate sampleRate = false ->
  let ratio := div sampleRate outRate in
  downsampleBuffer buffer sampleRate outRate
  = match new_length (length buffer) ratio with
    | Some newLength =>
        Some (map (output_sample buffer ratio) (seq 0 newLength))
    | None => None
    end.
Proof.
  intros Hne ratio. unfold downsampleBuffer, new_length. rewrite Hne.
  cbv zeta. fold ratio.
  destruct (Math_round (div (of_Z (Z.of_nat (length buffer))) ratio))
    as [|s|n] eqn:En.
  - reflexivity.
  - reflexivity.
  - destruct (Float32Array_new (RInt n)) as [result|] eqn:Ea; [|reflexivity].
    destruct (Float32Array_new_length n result Ea) as [Hn Hres].
    cbn [DataView.bind option_map]. subst result. rewrite repeat_length.
    destruct (Z.eq_dec n 0) as [->|Hpos].
    + cbn [Z.to_nat repeat seq map]. simp resample_loop. reflexivity.
    + rewrite resample_loop_fill.
      * cbn [Z.to_nat firstn app]. rewrite Z.sub_0_r. reflexivity.
      * apply (ratio_signed (Z.of_nat (length buffer)) ratio n);
          [lia | exact En | lia].
      * lia.
      * apply repeat_length.
      * reflexivity.
Qed.

(** C10, as amended.  [downsampleBuffer] returns its input when
    [outRate === sampleRate].  Otherwise, with [ratio = sampleRate /
    outRate] and [newLength = Math.round(buffer.length / ratio)], both
    quotients rounded to binary64, it raises a [RangeError] when
    [newLength] is negative, infinite or above 2^53 - 1, and else returns
    [newLength] samples (none when [newLength] is NaN).  Sample [k] is
    the binary32 rounding of the mean of its segment: the input samples
    with index from [Math.round(k * ratio)] (0 for the first) up to
    [Math.round((k + 1) * ratio)], the products rounded to binary64, cut
    at the end of the buffer; the mean is the binary64 sum from the left
    divided by the count, and 0 for an empty segment. *)
Theorem downsampleBuffer_rounded_means
  (buffer : list float) (sampleRate outRate : float) :
  let ratio := div sampleRate outRate in
  let samples (newLength : nat) :=
    map (fun k => fround (mean (segment buffer ratio k))) (seq 0 newLength) in
  Resample.downsampleBuffer buffer sampleRate outRate
  = (if strict_eq outRate sampleRate then Some buffer
     else
       match Math_round (div (of_Z (Z.of_nat (length buffer))) ratio) with
       | RNaN => Some []
       | RInfinity _ => None
       | RInt newLength =>
           if (0 <=? newLength) && (newLength <=? 9007199254740991)
           then Some (samples (Z.to_nat newLength))
           else None
       end)
  /\ (forall newLength, length (samples newLength) = newLength)
  /\ mean [] = zero.
Proof.
  intros ratio samples. split; [|split].
  - destruct (strict_eq outRate sampleRate) eqn:E.
    + unfold downsampleBuffer. rewrite E. reflexivity.
    + rewrite (downsampleBuffer_fill buffer sampleRate outRate E).
      cbv zeta. fold ratio. unfold new_length.
      destruct (Math_round (div (of_Z (Z.of_nat (length buffer))) ratio))
        as [|s|n]; cbn [Float32Array_new option_map]; try reflexivity.
      destruct ((0 <=? n) && (n <=? 9007199254740991));
        cbn [option_map]; [|reflexivity].
      rewrite repeat_length. reflexivity.
  - intros newLength. unfold samples. rewrite length_map, length_seq.
    reflexivity.
  - reflexivity.
Qed.

(** C10, as stated, fails.  Seven samples taken from 8960 Hz to 16000 Hz
    come back as 12 samples, where [round(7 * 16000 / 8960)] is 13: the
    code divides by the rounded ratio.  And the two samples [-0.5] and
    [-(0.5 - 2^-25)] taken from 32000 Hz to 16000 Hz come back as [-0.5],
    which is not their mean: the mean is stored as a binary32 value. *)
Lemma downsampleBuffer_rounds :
  (option_map (@length float)
     (Resample.downsampleBuffer (repeat zero 7) (of_Z 8960) (of_Z 16000))
   = Some 12%nat
   /\ Js.Math_round (7 * 16000 / 8960) = 13)
  /\ (Resample.downsampleBuffer [ldexp (-1) (-1); ldexp (-16777215) (-25)]
        (of_Z 32000) (of_Z 16000)
      = Some [ldexp (-1) (-1)]
      /\ map to_number [ldexp (-1) (-1); ldexp (-16777215) (-25)]
         = [Fin (value true 4503599627370496 (-53));
            Fin (value true 9007198717870080 (-54))]
      /\ (value true 4503599627370496 (-53) == - (1 # 2))%Q
      /\ (value true 9007198717870080 (-54) == - (16777215 # 33554432))%Q
      /\ ~ ((- (1 # 2) + - (16777215 # 33554432)) / 2 == - (1 # 2))%Q).
Proof.
  split; [split; vm_compute; reflexivity|].
  split; [vm_compute; reflexivity|].
  split; [vm_compute; reflexivity|].
  split; [vm_compute; reflexivity|].
  split; [vm_compute; reflexivity|].
  intros H. vm_compute in H. discriminate H.
Qed.

(** The store into a [Float32Array]: 0.1 is kept as 13421773 * 2^-27,
    2^128 overflows, and below the smallest binary32 value a tie goes to
    the even neighbour. *)
Example fround_ex :
  fround (div (of_Z 1) (of_Z 10)) = ldexp 13421773 (-27)
  /\ fround (ldexp 1 128) = S754_infinity false
  /\ fround (ldexp 3 (-150)) = ldexp 1 (-148)
  /\ fround (ldexp 1 (-150)) = zero.
Proof. repeat split; vm_compute; reflexivity. Qed.

(** At 48000 Hz three input samples make one output sample; at 8000 Hz
    every other output sample has an empty segment. *)
Example downsampleBuffer_ex :
  downsampleBuffer (map of_Z [3; 6; 9; 1; 2; 3; 7; 7]) (of_Z 48000)
    (of_Z 16000)
  = Some [of_Z 6; of_Z 2; of_Z 7]
  /\ downsampleBuffer (map of_Z [1; 2]) (of_Z 8000) (of_Z 16000)
     = Some [of_Z 1; zero; of_Z 2; zero].
Proof. split; vm_compute; reflexivity. Qed.

(** A context rate of 0, or a negative one, ends in the [RangeError] of
    the allocation; an output rate of 0 and a NaN rate give an empty
    result. *)
Example downsampleBuffer_raises :
  downsampleBuffer (map of_Z [1; 2]) (of_Z 0) (of_Z 16000) = None
  /\ downsampleBuffer (map of_Z [1; 2]) (of_Z (-8000)) (of_Z 16000) = None
  /\ downsampleBuffer (map of_Z [1; 2]) (of_Z 8000) (of_Z 0) = Some []
  /\ downsampleBuffer (map of_Z [1; 2]) S754_nan (of_Z 16000) = Some [].
Proof. repeat split; vm_compute; reflexivity. Qed.

(** The bounds of the segments are rounded products: at 18240 Hz the
    segment of output sample 24 ends at index 28, where
    [round(25 * 18240 / 16000)] is 29. *)
Example offset_rounds :
  offset (div (of_Z 18240) (of_Z 16000)) 25 = RInt 28
  /\ Js.Math_round (25 * 18240 / 16000) = 29.
Proof. split; vm_compute; reflexivity. Qed.

End Downsampler.

(** ** Confidence smoothing *)

Section Smoothing.

Import Confidence.
Local Open Scope Q_scope.

Variable alpha : Q.
Hypothesis alpha_range : 0 <= alpha <= 1.

Lemma smooth_fixed raw : smooth alpha raw raw == raw.
Proof. unfold smooth. ring. Qed.

Lemma smooth_in_range raw prior :
  in_range raw -> in_range prior -> in_range (smooth alpha raw prior).
Proof.
  unfold in_range, smooth. intros [Hr0 Hr1] [Hp0 Hp1].
  destruct alpha_range as [Ha0 Ha1]. split; nra.
Qed.

Lemma smooth_iter_distance raw prior n :
  smooth_iter alpha raw n prior - raw == decay alpha n * (prior - raw).
Proof.
  induction n as [|n IH]; cbn [smooth_iter decay].
  - ring.
  - unfold smooth.
    setoid_replace
      (alpha * raw + (1 - alpha) * smooth_iter alpha raw n prior - raw)
      with ((1 - alpha) * (smooth_iter alpha raw n prior - raw)) by ring.
    rewrite IH. ring.
Qed.

Lemma smooth_iter_in_range raw prior n :
  in_range raw -> in_range prior -> in_range (smooth_iter alpha raw n prior).
Proof.
  intros Hr Hp. induction n as [|n IH]; cbn [smooth_iter]; [exact Hp|].
  apply smooth_in_range; assumption.
Qed.

Lemma smooth_stream_in_range raws : forall st,
  Forall in_range raws ->
  match st with Some p => in_range p | None => True end ->
  Forall in_range (smooth_stream alpha st raws).
Proof.
  induction raws as [|raw rest IH]; intros st Hall Hst; cbn [smooth_stream].
  - constructor.
  - inversion Hall as [|? ? Hraw Hrest]; subst.
    assert (Hs : in_range (smooth_step alpha st raw)).
    { destruct st as [p|]; cbn [smooth_step];
        [apply smooth_in_range|]; assumption. }
    constructor; [exact Hs|]. apply IH; assumption.
Qed.

Lemma smooth_stream_constant raw n : forall st,
  match st with Some p => p == raw | None => True end ->
  Forall (fun s => s == raw) (smooth_stream alpha st (repeat raw n)).
Proof.
  induction n as [|n IH]; intros st Hst; cbn [repeat smooth_stream].
  - constructor.
  - assert (Hs : smooth_step alpha st raw == raw).
    { destruct st as [p|]; cbn [smooth_step]; [|reflexivity].
      unfold smooth. rewrite Hst. ring. }
    constructor; [exact Hs|]. apply IH. exact Hs.
Qed.

(** The share of the prior value that is left shrinks to nothing:
    [(1 - alpha)^n] lies in [0, 1] and is at most [1 / (1 + n * alpha)]. *)
Lemma decay_vanishes n :
  0 <= decay alpha n
  /\ decay alpha n <= 1
  /\ decay alpha n * (1 + inject_Z (Z.of_nat n) * alpha) <= 1.
Proof.
  destruct alpha_range as [Ha0 Ha1].
  induction n as [|n (IH0 & IH1 & IH2)].
  - cbn [decay Z.of_nat]. change (inject_Z 0) with 0.
    split; [|split]; lra.
  - cbn [decay]. rewrite Nat2Z.inj_succ. unfold Z.succ.
    rewrite inject_Z_plus. change (inject_Z 1) with 1.
    set (d := decay alpha n) in *.
    set (m := inject_Z (Z.of_nat n)) in *.
    assert (Hm : 0 <= m).
    { unfold m. change 0 with (inject_Z 0). rewrite <- Zle_Qle. lia. }
    assert (Hda : 0 <= d * alpha) by (apply Qmult_le_0_compat; assumption).
    assert (Hdaa : 0 <= d * alpha * alpha)
      by (apply Qmult_le_0_compat; assumption).
    assert (Hdaam : 0 <= d * alpha * alpha * m)
      by (apply Qmult_le_0_compat; assumption).
    split; [|split].
    + apply Qmult_le_0_compat; [lra | exact IH0].
    + setoid_replace ((1 - alpha) * d) with (d - d * alpha) by ring. lra.
    + setoid_replace ((1 - alpha) * d * (1 + (m + 1) * alpha))
        with (d * (1 + m * alpha) - d * alpha * alpha * m - d * alpha * alpha)
        by ring.
      lra.
Qed.

(** C6.  With [smoothed = alpha * raw + (1 - alpha) * prior] and the state
    of a stream set to its first raw score: on a stream that repeats one
    raw score in [0, 100], every smoothed score, the first included, is
    that raw score and lies in [0, 100]; and from any prior smoothed value
    in [0, 100], [n] applications of that raw score leave the distance to
    it multiplied by [(1 - alpha)^n], a factor between 0 and
    [1 / (1 + n * alpha)], and leave the value inside [0, 100]. *)
Theorem smoothing_constant_stream (raw prior : Q) (n : nat) :
  in_range raw -> in_range prior ->
  Forall (fun s => s == raw /\ in_range s)
    (Confidence.smooth_stream alpha None (repeat raw n))
  /\ Confidence.smooth alpha raw raw == raw
  /\ Confidence.smooth_iter alpha raw n prior - raw
     == decay alpha n * (prior - raw)
  /\ in_range (Confidence.smooth_iter alpha raw n prior)
  /\ (0 <= decay alpha n
      /\ decay alpha n * (1 + inject_Z (Z.of_nat n) * alpha) <= 1).
Proof.
  intros Hraw Hprior. split; [|split; [|split; [|split]]].
  - pose proof (smooth_stream_constant raw n None I) as Hc.
    assert (Hall : Forall in_range (repeat raw n)).
    { apply Forall_forall. intros x Hx. apply repeat_spec in Hx.
      subst x. exact Hraw. }
    pose proof (smooth_stream_in_range (repeat raw n) None Hall I) as Hr.
    rewrite Forall_forall in *. intros x Hx. split; auto.
  - apply smooth_fixed.
  - apply smooth_iter_distance.
  - apply smooth_iter_in_range; assumption.
  - destruct (decay_vanishes n) as (H0 & _ & H2). split; assumption.
Qed.

End Smoothing.

Lemma smoothing_constant_stream_witness :
  ((0 <= Confidence.default_alpha <= 1)%Q
   /\ Confidence.in_range 50 /\ Confidence.in_range 20)
  /\ Forall (fun s => (s == 50)%Q /\ Confidence.in_range s)
       (Confidence.smooth_stream Confidence.default_alpha None (repeat 50%Q 3))
  /\ Confidence.in_range
       (Confidence.smooth_iter Confidence.default_alpha 50 3 20).
Proof.
  assert (Ha : (0 <= Confidence.default_alpha <= 1)%Q).
  { split; vm_compute; discriminate. }
  assert (Hr : Confidence.in_range 50).
  { split; vm_compute; discriminate. }
  assert (Hp : Confidence.in_range 20).
  { split; vm_compute; discriminate. }
  split; [auto|].
  destruct (smoothing_constant_stream Confidence.default_alpha Ha 50 20 3 Hr Hp)
    as (Hs & _ & _ & Hi & _).
  split; [exact Hs | exact Hi].
Defined.

Example smooth_stream_ex :
  map Qred (Confidence.smooth_stream Confidence.default_alpha None
              [40; 80; 80])%Q
  = [40; 68; 382 # 5]%Q.
Proof. vm_compute. reflexivity. Qed.
(** ** The preview *)

Section PreviewFacts.

Import Js DataView Pcm Hook Wav Preview.

Lemma set_at_fill (pre old post a : list Z) :
  length old = length a ->
  set_at (pre ++ old ++ post) a (length pre) = Some (pre ++ a ++ post).
Proof. intros H. apply (write_bytes_at pre old post a H). Qed.

Lemma total_length_shift chunks : forall n,
  fold_left (fun s a => (s + length a)%nat) chunks n
  = (n + total_length chunks)%nat.
Proof.
  unfold total_length.
  induction chunks as [|a rest IH]; intros n; cbn [fold_left].
  - lia.
  - rewrite IH, (IH (0 + length a)%nat). lia.
Qed.

Lemma total_length_cons (a : list Z) rest :
  total_length (a :: rest) = (length a + total_length rest)%nat.
Proof.
  unfold total_length at 1. cbn [fold_left]. rewrite total_length_shift. lia.
Qed.

Lemma total_length_concat chunks : total_length chunks = length (concat chunks).
Proof.
  induction chunks as [|a rest IH]; [reflexivity|].
  rewrite total_length_cons, IH. cbn [concat]. rewrite length_app.
  reflexivity.
Qed.

Lemma concat_loop_fill chunks : forall pre,
  concat_loop (pre ++ repeat 0 (total_length chunks)) (length pre) chunks
  = Some (pre ++ concat chunks).
Proof.
  induction chunks as [|a rest IH]; intros pre.
  - cbn. reflexivity.
  - cbn [concat_loop concat]. rewrite total_length_cons, repeat_app.
    rewrite set_at_fill by apply repeat_length.
    cbn [bind].
    replace (length pre + length a)%nat with (length (pre ++ a))
      by (rewrite length_app; reflexivity).
    rewrite app_assoc, IH, <- app_assoc. reflexivity.
Qed.

(** X1.  [concatInt16] never raises: it returns the samples of the chunks
    end to end, in the order of the chunks, and as many samples as the
    chunks hold together. *)
Theorem concatInt16_concat (chunks : list (list Z)) :
  Preview.concatInt16 chunks = Some (concat chunks)
  /\ length (concat chunks) = total_length chunks.
Proof.
  split; [|symmetry; apply total_length_concat].
  unfold concatInt16. apply (concat_loop_fill chunks []).
Qed.

(** Neither the scheduler nor a timer touches the chunks kept for the
    preview; [enqueue] adds its chunk at the end. *)
Lemma scheduleLoop_enhanced now h :
  enhancedChunksRef (scheduleLoop now h) = enhancedChunksRef h.
Proof.
  unfold scheduleLoop. destruct (ctxRef h); [|reflexivity].
  destruct (schedule_while _ _ _ _ _ _) as [[queue next] st].
  destruct queue; reflexivity.
Qed.

Lemma enqueue_enhanced now pcm16 h :
  enhancedChunksRef (enqueue now pcm16 h) = enhancedChunksRef h ++ [pcm16].
Proof.
  unfold enqueue. set (h1 := with_enhanced _ _).
  assert (H1 : enhancedChunksRef h1 = enhancedChunksRef h ++ [pcm16])
    by reflexivity.
  destruct (negb (isPlayingRef h1) && _); [|exact H1].
  destruct (ctxRef h1); [|exact H1].
  rewrite scheduleLoop_enhanced. exact H1.
Qed.

Lemma fire_enhanced now h :
  enhancedChunksRef (fire now h) = enhancedChunksRef h.
Proof.
  unfold fire. destruct (timers h) as [|t ts]; [reflexivity|].
  destruct t.
  - rewrite scheduleLoop_enhanced. reflexivity.
  - cbn [recvQueueRef with_playback]. destruct (recvQueueRef h).
    + reflexivity.
    + rewrite scheduleLoop_enhanced. reflexivity.
Qed.

Lemma playback_run_enhanced evs : forall h,
  enhancedChunksRef (playback_run evs h)
  = enhancedChunksRef h ++ enqueued evs.
Proof.
  induction evs as [|e evs IH]; intros h.
  - cbn. rewrite app_nil_r. reflexivity.
  - unfold playback_run in *. cbn [fold_left]. rewrite IH.
    destruct e as [now pcm16 | now]; cbn [playback_step enqueued].
    + rewrite enqueue_enhanced, <- app_assoc. reflexivity.
    + rewrite fire_enhanced. reflexivity.
Qed.

Lemma Int16Array_ok_concat chunks :
  Forall Int16Array_ok chunks -> Int16Array_ok (concat chunks).
Proof.
  unfold Int16Array_ok. induction 1 as [|a rest Ha _ IH]; cbn [concat].
  - constructor.
  - apply Forall_app. split; assumption.
Qed.

(** X2.  The preview holds everything that was received, played or not:
    after any run of arrivals and timers on a hook whose preview store
    was empty, [makePreview()] never raises; it returns without a preview
    when no sample arrived, and otherwise builds a WAV blob of 44 bytes
    and two bytes per sample whose data section reads back as the
    samples of all the chunks enqueued, in their order of arrival. *)
Theorem makePreview_keeps_all (h : Hook.hook) (evs : list Hook.playback_event) :
  enhancedChunksRef h = [] ->
  Forall Int16Array_ok (enqueued evs) ->
  match Preview.makePreview (playback_run evs h) with
  | Raised => False
  | NoPreview => concat (enqueued evs) = []
  | PreviewOf blob =>
      concat (enqueued evs) <> []
      /\ length (blob_bytes blob)
         = (44 + 2 * length (concat (enqueued evs)))%nat
      /\ samples_of_bytes (skipn 44 (blob_bytes blob))
         = concat (enqueued evs)
  end.
Proof.
  intros Hempty Hok. unfold makePreview.
  rewrite playback_run_enhanced, Hempty. cbn [app].
  pose proof (concat_loop_fill (enqueued evs) []) as Hc.
  cbn [app length] in Hc. unfold concatInt16. rewrite Hc. clear Hc.
  pose proof (Int16Array_ok_concat _ Hok) as Hall.
  destruct (concat (enqueued evs)) as [|x all] eqn:Eall; [reflexivity|].
  rewrite pcm16ToWavBlob_bytes.
  destruct (header_fields (length (x :: all)) SAMPLE_RATE 1
              (flat_map (fun x => sample_bytes (of_Z x)) (x :: all)))
    as (_ & _ & _ & Hskip).
  cbn [blob_bytes]. split; [discriminate|]. split.
  - rewrite length_app, length_flat_sample_bytes. reflexivity.
  - rewrite Hskip. apply samples_of_data. exact Hall.
Qed.

Lemma makePreview_keeps_all_witness :
  (enhancedChunksRef running_hook = []
   /\ Forall Int16Array_ok
        (enqueued [Enqueue 0 [1; -2]; Fire 1; Enqueue 2 []; Enqueue 3 [7]]))
  /\ exists blob,
       Preview.makePreview
         (playback_run
            [Enqueue 0 [1; -2]; Fire 1; Enqueue 2 []; Enqueue 3 [7]]
            running_hook) = PreviewOf blob
       /\ samples_of_bytes (skipn 44 (blob_bytes blob)) = [1; -2; 7].
Proof.
  assert (H1 : enhancedChunksRef running_hook = []) by reflexivity.
  assert (H2 : Forall Int16Array_ok
                 (enqueued [Enqueue 0 [1; -2]; Fire 1; Enqueue 2 [];
                            Enqueue 3 [7]])).
  { repeat constructor; unfold is_int16; lia. }
  split; [split; assumption|].
  pose proof (makePreview_keeps_all running_hook
                [Enqueue 0 [1; -2]; Fire 1; Enqueue 2 []; Enqueue 3 [7]]
                H1 H2) as H.
  destruct (Preview.makePreview _) as [| |blob]; [contradiction|discriminate|].
  exists blob. split; [reflexivity|]. apply H.
Defined.

End PreviewFacts.

Section Receiving.

Import Js DataView Pcm Hook Wav Preview.

Lemma nonempty_chunks_all queue :
  no_empty_chunk queue -> nonempty_chunks queue = queue.
Proof.
  unfold no_empty_chunk, nonempty_chunks.
  induction 1 as [|c rest Hc _ IH]; [reflexivity|].
  cbn [filter]. rewrite Hc, IH. reflexivity.
Qed.

(** The loop of the scheduler leaves a tail of the queue. *)
Lemma schedule_while_suffix now rate queue : forall scheduled next st,
  exists taken,
    queue = taken ++ fst (fst (schedule_while now rate queue scheduled next st)).
Proof.
  induction queue as [|pcm16 rest IH]; intros scheduled next st.
  - exists []. reflexivity.
  - cbn [schedule_while]. destruct (scheduled <? 10)%nat.
    + destruct (chunk_empty pcm16).
      * destruct (IH scheduled next st) as [taken Ht].
        exists (pcm16 :: taken). cbn [app]. f_equal. exact Ht.
      * match goal with
        | |- context [schedule_while now rate rest ?s ?n ?t] =>
            destruct (IH s n t) as [taken Ht]
        end.
        exists (pcm16 :: taken). cbn [app]. f_equal. exact Ht.
    + exists []. reflexivity.
Qed.

Lemma scheduleLoop_queue_suffix now h :
  exists taken, recvQueueRef h = taken ++ recvQueueRef (scheduleLoop now h).
Proof.
  unfold scheduleLoop. destruct (ctxRef h) as [ctx|]; [|exists []; reflexivity].
  destruct (schedule_while_suffix now (sampleRate ctx) (recvQueueRef h) 0
              (nextPlayTimeRef h) (started h)) as [taken Ht].
  destruct (schedule_while _ _ _ _ _ _) as [[queue next] st].
  cbn [fst] in Ht. exists taken. destruct queue; exact Ht.
Qed.

Lemma scheduleLoop_no_empty now h :
  no_empty_chunk (recvQueueRef h) ->
  no_empty_chunk (recvQueueRef (scheduleLoop now h)).
Proof.
  intros H. destruct (scheduleLoop_queue_suffix now h) as [taken Ht].
  unfold no_empty_chunk in *. rewrite Ht in H.
  apply Forall_app in H. apply H.
Qed.

Lemma enqueue_no_empty now pcm16 h :
  chunk_empty pcm16 = false ->
  no_empty_chunk (recvQueueRef h) ->
  no_empty_chunk (recvQueueRef (enqueue now pcm16 h)).
Proof.
  intros Hc H. unfold enqueue. set (h1 := with_enhanced _ _).
  assert (H1 : no_empty_chunk (recvQueueRef h1)).
  { unfold h1. cbn [recvQueueRef with_enhanced with_playback].
    apply Forall_app. split; [exact H | repeat constructor; exact Hc]. }
  destruct (negb (isPlayingRef h1) && _); [|exact H1].
  destruct (ctxRef h1); [|exact H1].
  apply scheduleLoop_no_empty. exact H1.
Qed.

Lemma fire_no_empty now h :
  no_empty_chunk (recvQueueRef h) ->
  no_empty_chunk (recvQueueRef (fire now h)).
Proof.
  intros H. unfold fire. destruct (timers h) as [|t ts]; [exact H|].
  destruct t.
  - apply scheduleLoop_no_empty. exact H.
  - cbn [recvQueueRef with_playback]. destruct (recvQueueRef h) eqn:E.
    + cbn [recvQueueRef with_playback]. constructor.
    + apply scheduleLoop_no_empty. cbn [recvQueueRef with_playback].
      exact H.
Qed.

(** A payload of even, non-zero length decodes to at least one sample. *)
Lemma Int16Array_of_buffer_nonempty b data pcm16 :
  Int16Array_of_buffer (b :: data) = Some pcm16 -> chunk_empty pcm16 = false.
Proof.
  unfold Int16Array_of_buffer. destruct data as [|b' data'].
  - cbn. discriminate.
  - destruct (Nat.even _); [|discriminate].
    intros H. injection H as <-. reflexivity.
Qed.

Lemma onmessage_order now data h :
  no_empty_chunk (recvQueueRef h) ->
  no_empty_chunk (recvQueueRef (onmessage now data h))
  /\ playback_order (onmessage now data h)
     = playback_order h ++ received [Message now data].
Proof.
  intros H. unfold onmessage. cbn [received].
  destruct data as [|b data]; [rewrite app_nil_r; auto|].
  destruct (Int16Array_of_buffer (b :: data)) as [pcm16|] eqn:E;
    [|rewrite app_nil_r; auto].
  pose proof (Int16Array_of_buffer_nonempty _ _ _ E) as Hne.
  rewrite Hne. split; [apply enqueue_no_empty; assumption|].
  rewrite enqueue_order. unfold nonempty_chunks. cbn [filter].
  rewrite Hne. reflexivity.
Qed.

Lemma received_cons e evs : received (e :: evs) = received [e] ++ received evs.
Proof.
  destruct e as [now data | now]; cbn [received]; [|reflexivity].
  destruct data as [|b data]; [reflexivity|].
  destruct (Int16Array_of_buffer (b :: data)); reflexivity.
Qed.

Lemma receive_run_order evs : forall h,
  no_empty_chunk (recvQueueRef h) ->
  no_empty_chunk (recvQueueRef (receive_run evs h))
  /\ playback_order (receive_run evs h) = playback_order h ++ received evs.
Proof.
  induction evs as [|e evs IH]; intros h H.
  - cbn. rewrite app_nil_r. auto.
  - unfold receive_run in *. cbn [fold_left].
    assert (Hstep : no_empty_chunk (recvQueueRef (receive_step h e))
                    /\ playback_order (receive_step h e)
                       = playback_order h ++ received [e]).
    { destruct e as [now data | now]; cbn [receive_step].
      - apply onmessage_order, H.
      - split; [apply fire_no_empty, H|].
        rewrite fire_order. cbn. rewrite app_nil_r. reflexivity. }
    destruct Hstep as [Hq Ho]. destruct (IH _ Hq) as [Hq' Ho'].
    split; [exact Hq'|].
    rewrite Ho', Ho, (received_cons e evs), app_assoc. reflexivity.
Qed.

(** X3.  Through [ws.onmessage] no empty chunk enters the playback queue,
    so the scheduler has nothing to skip: after any run of binary
    messages and timers on a queue without empty chunk, the chunks
    started, in the order of the [src.start] calls, followed by the
    chunks still queued, are exactly the chunks decoded from the
    messages with a non-empty payload of even length, in their order of
    arrival; other messages leave no trace. *)
Theorem onmessage_nothing_skipped
  (h : Hook.hook) (evs : list Preview.receive_event) :
  Forall (fun c => chunk_empty c = false) (recvQueueRef h) ->
  let h' := Preview.receive_run evs h in
  map fst (started h') ++ recvQueueRef h'
  = map fst (started h) ++ recvQueueRef h ++ received evs
  /\ Forall (fun c => chunk_empty c = false) (recvQueueRef h').
Proof.
  intros H h'. destruct (receive_run_order evs h H) as [Hq Ho].
  fold h' in Hq, Ho. split; [|exact Hq].
  unfold playback_order in Ho.
  rewrite (nonempty_chunks_all _ Hq), (nonempty_chunks_all _ H) in Ho.
  rewrite Ho, app_assoc. reflexivity.
Qed.

Lemma onmessage_nothing_skipped_witness :
  Forall (fun c => chunk_empty c = false) (recvQueueRef running_hook)
  /\ (let h' := Preview.receive_run
                  [Message 0 [1; 0; 255; 255]; Message 0 []; Message 0 [7];
                   Tick 1; Message 2 [2; 0]] running_hook in
      map fst (started h') ++ recvQueueRef h' = [[1; -1]; [2]]).
Proof.
  assert (H : Forall (fun c => chunk_empty c = false)
                (recvQueueRef running_hook)) by constructor.
  split; [exact H|].
  exact (proj1 (onmessage_nothing_skipped running_hook
                  [Message 0 [1; 0; 255; 255]; Message 0 []; Message 0 [7];
                   Tick 1; Message 2 [2; 0]] H)).
Defined.

Lemma even_double n : Nat.even (2 * n) = true.
Proof.
  induction n as [|n IH]; [reflexivity|].
  replace (2 * S n)%nat with (S (S (2 * n))) by lia. exact IH.
Qed.

(** X4.  A frame that leaves as [pcm16.buffer] and comes back unchanged
    is read by [new Int16Array(msg.data)] as the same samples: the bytes
    of every frame made by [floatToInt16] have an even length and decode
    to that frame. *)
Theorem frame_bytes_roundtrip (frame : list number) :
  Preview.Int16Array_of_buffer
    (Preview.buffer_of_Int16Array (floatToInt16 frame))
  = Some (floatToInt16 frame).
Proof.
  unfold Int16Array_of_buffer, buffer_of_Int16Array.
  rewrite length_flat_sample_bytes, even_double. f_equal.
  apply samples_of_data. unfold Int16Array_ok, floatToInt16.
  apply Forall_map, Forall_forall. intros x _. apply sample_to_int16_range.
Qed.

End Receiving.

Section Scheduler.

Import Js Pcm Hook Timeline.

(** *** One chain of timers *)

Lemma scheduleLoop_ctx now h : ctxRef (scheduleLoop now h) = ctxRef h.
Proof.
  unfold scheduleLoop. destruct (ctxRef h) eqn:E; [|exact E].
  destruct (schedule_while _ _ _ _ _ _) as [[queue next] st].
  destruct queue; exact E.
Qed.

Lemma enqueue_ctx now pcm16 h : ctxRef (enqueue now pcm16 h) = ctxRef h.
Proof.
  unfold enqueue. set (h1 := with_enhanced _ _).
  assert (H1 : ctxRef h1 = ctxRef h) by reflexivity.
  destruct (negb (isPlayingRef h1) && _); [|exact H1].
  destruct (ctxRef h1) eqn:E; [|congruence].
  rewrite scheduleLoop_ctx. cbn [ctxRef with_playback]. congruence.
Qed.

Lemma fire_ctx now h : ctxRef (fire now h) = ctxRef h.
Proof.
  unfold fire. destruct (timers h) as [|t ts]; [reflexivity|].
  destruct t.
  - rewrite scheduleLoop_ctx. reflexivity.
  - cbn [recvQueueRef with_playback]. destruct (recvQueueRef h).
    + reflexivity.
    + rewrite scheduleLoop_ctx. reflexivity.
Qed.

Lemma playback_run_ctx evs : forall h,
  ctxRef (playback_run evs h) = ctxRef h.
Proof.
  induction evs as [|e evs IH]; intros h; [reflexivity|].
  unfold playback_run in *. cbn [fold_left]. rewrite IH.
  destruct e; cbn [playback_step]; [apply enqueue_ctx | apply fire_ctx].
Qed.

(** With a context, one call of [scheduleLoop] sets one timer and leaves
    the playing flag alone. *)
Lemma scheduleLoop_timer now h ctx :
  ctxRef h = Some ctx ->
  length (timers (scheduleLoop now h)) = S (length (timers h))
  /\ isPlayingRef (scheduleLoop now h) = isPlayingRef h.
Proof.
  intros E. unfold scheduleLoop. rewrite E.
  destruct (schedule_while _ _ _ _ _ _) as [[queue next] st].
  destruct queue; cbn [timers isPlayingRef with_playback];
    rewrite length_app; cbn [length]; split; (lia || reflexivity).
Qed.

Lemma enqueue_one_chain now pcm16 h ctx :
  ctxRef h = Some ctx -> one_chain h -> one_chain (enqueue now pcm16 h).
Proof.
  intros E H. unfold one_chain in *. unfold enqueue.
  set (h1 := with_enhanced _ _).
  assert (Hp : isPlayingRef h1 = isPlayingRef h) by reflexivity.
  assert (Ht : timers h1 = timers h) by reflexivity.
  assert (Hc : ctxRef h1 = Some ctx) by exact E.
  destruct (isPlayingRef h1) eqn:Ep; cbn [negb andb].
  - rewrite Ep, Ht. rewrite <- Hp in H. exact H.
  - destruct (PREBUFFER_FRAMES <=? length (recvQueueRef h1))%nat.
    + rewrite Hc.
      match goal with
      | |- context [scheduleLoop now ?h2] =>
          destruct (scheduleLoop_timer now h2 ctx Hc) as [Hl Hq]
      end.
      rewrite Hl, Hq. cbn [isPlayingRef timers with_playback].
      rewrite Ht. rewrite <- Hp in H. rewrite H. reflexivity.
    + rewrite Ep, Ht. rewrite <- Hp in H. exact H.
Qed.

Lemma fire_one_chain now h ctx :
  ctxRef h = Some ctx -> one_chain h -> one_chain (fire now h).
Proof.
  intros E H. unfold one_chain in *.
  destruct (timers h) as [|t ts] eqn:Et.
  { unfold fire. rewrite Et, Et. exact H. }
  assert (Ep : isPlayingRef h = true).
  { destruct (isPlayingRef h); [reflexivity | discriminate H]. }
  rewrite Ep in H. cbn [length] in H.
  assert (Hts : ts = []) by (destruct ts; [reflexivity | discriminate]).
  subst ts.
  set (h1 := with_playback h (recvQueueRef h) (nextPlayTimeRef h)
               (isPlayingRef h) (started h) []).
  assert (Hc : ctxRef h1 = Some ctx) by exact E.
  destruct (scheduleLoop_timer now h1 ctx Hc) as [Hl Hq].
  assert (Hp1 : isPlayingRef h1 = true) by exact Ep.
  unfold fire. rewrite Et. cbv zeta. fold h1. destruct t.
  - rewrite Hl, Hq, Hp1. reflexivity.
  - change (recvQueueRef h1) with (recvQueueRef h).
    destruct (recvQueueRef h); [reflexivity|].
    rewrite Hl, Hq, Hp1. reflexivity.
Qed.

Lemma playback_run_one_chain evs : forall h ctx,
  ctxRef h = Some ctx -> one_chain h -> one_chain (playback_run evs h).
Proof.
  induction evs as [|e evs IH]; intros h ctx E H; [exact H|].
  unfold playback_run in *. cbn [fold_left].
  destruct e as [now pcm16 | now]; cbn [playback_step].
  - apply (IH _ ctx); [rewrite enqueue_ctx; exact E|].
    apply (enqueue_one_chain now pcm16 h ctx E H).
  - apply (IH _ ctx); [rewrite fire_ctx; exact E|].
    apply (fire_one_chain now h ctx E H).
Qed.

(** X5.  One scheduler at most runs at a time: on a hook with an audio
    context, no timer pending and playback not started, after any run of
    arrivals and timers exactly one timer is pending while the playing
    flag is set and none is while it is clear. *)
Theorem scheduler_single_chain
  (h : Hook.hook) (ctx : Hook.AudioContext) (evs : list Hook.playback_event) :
  ctxRef h = Some ctx -> timers h = [] -> isPlayingRef h = false ->
  let h' := playback_run evs h in
  length (timers h') = if isPlayingRef h' then 1%nat else 0%nat.
Proof.
  intros E Ht Hp h'. apply (playback_run_one_chain evs h ctx E).
  unfold one_chain. rewrite Ht, Hp. reflexivity.
Qed.

Lemma scheduler_single_chain_witness :
  (ctxRef running_hook = Some {| sampleRate := inject_Z SAMPLE_RATE |}
   /\ timers running_hook = [] /\ isPlayingRef running_hook = false)
  /\ length (timers (playback_run two_bursts running_hook)) = 1%nat
  /\ isPlayingRef (playback_run two_bursts running_hook) = true.
Proof.
  split; [repeat split|].
  pose proof (scheduler_single_chain running_hook
                {| sampleRate := inject_Z SAMPLE_RATE |} two_bursts
                eq_refl eq_refl eq_refl) as H.
  cbn zeta in H.
  assert (Hp : isPlayingRef (playback_run two_bursts running_hook) = true)
    by (vm_compute; reflexivity).
  rewrite Hp in H. split; [exact H | exact Hp].
Defined.

End Scheduler.

Section SchedulerBounds.

Import Js Pcm Hook Timeline.

(** *** Prebuffering *)

Lemma enqueue_below_prebuffer now pcm16 h :
  isPlayingRef h = false ->
  (length (recvQueueRef h) + 1 < PREBUFFER_FRAMES)%nat ->
  started (enqueue now pcm16 h) = started h
  /\ recvQueueRef (enqueue now pcm16 h) = recvQueueRef h ++ [pcm16]
  /\ isPlayingRef (enqueue now pcm16 h) = false
  /\ timers (enqueue now pcm16 h) = timers h.
Proof.
  intros Hp Hlen. unfold enqueue. set (h1 := with_enhanced _ _).
  assert (Hq : recvQueueRef h1 = recvQueueRef h ++ [pcm16]) by reflexivity.
  assert (Hlow : (PREBUFFER_FRAMES <=? length (recvQueueRef h1))%nat = false).
  { apply Nat.leb_gt. rewrite Hq, length_app. cbn [length]. lia. }
  rewrite Hlow, andb_false_r. repeat split; try reflexivity. exact Hp.
Qed.

(** X6.  Playback does not start before [PREBUFFER_FRAMES] chunks are
    queued: while playback is stopped and no timer is pending, a run that
    leaves fewer than six chunks in the queue starts no source; the
    chunks wait in the queue in their order of arrival. *)
Theorem prebuffer_holds_back (h : Hook.hook) (evs : list Hook.playback_event) :
  isPlayingRef h = false -> timers h = [] ->
  (length (recvQueueRef h) + length (enqueued evs) < PREBUFFER_FRAMES)%nat ->
  let h' := playback_run evs h in
  started h' = started h
  /\ recvQueueRef h' = recvQueueRef h ++ enqueued evs
  /\ isPlayingRef h' = false.
Proof.
  revert h. induction evs as [|e evs IH]; intros h Hp Ht Hlen; cbn zeta.
  - cbn. rewrite app_nil_r. auto.
  - unfold playback_run in *. cbn [fold_left].
    destruct e as [now pcm16 | now]; cbn [playback_step enqueued length] in *.
    + destruct (enqueue_below_prebuffer now pcm16 h Hp) as (Hs & Hq & Hp' & Ht');
        [lia|].
      destruct (IH (enqueue now pcm16 h)) as (Hs2 & Hq2 & Hp2).
      * exact Hp'.
      * rewrite Ht'. exact Ht.
      * rewrite Hq, length_app. cbn [length]. lia.
      * rewrite Hs2, Hq2, Hs, Hq, <- app_assoc. auto.
    + assert (Hf : fire now h = h) by (unfold fire; rewrite Ht; reflexivity).
      rewrite Hf. apply IH; assumption.
Qed.

Lemma prebuffer_holds_back_witness :
  (isPlayingRef running_hook = false /\ timers running_hook = []
   /\ Nat.lt
        (Nat.add (length (recvQueueRef running_hook))
           (length (enqueued [Enqueue 0 [1]; Fire 1; Enqueue 2 [2];
                              Enqueue 3 [3]])))
        PREBUFFER_FRAMES)
  /\ started (playback_run [Enqueue 0 [1]; Fire 1; Enqueue 2 [2];
                            Enqueue 3 [3]] running_hook) = []
  /\ recvQueueRef (playback_run [Enqueue 0 [1]; Fire 1; Enqueue 2 [2];
                                 Enqueue 3 [3]] running_hook)
     = [[1]; [2]; [3]].
Proof.
  assert (H3 : Nat.lt
                 (Nat.add (length (recvQueueRef running_hook))
                    (length (enqueued [Enqueue 0 [1]; Fire 1; Enqueue 2 [2];
                                       Enqueue 3 [3]])))
                 PREBUFFER_FRAMES)
    by (vm_compute; lia).
  split; [repeat split; exact H3|].
  destruct (prebuffer_holds_back running_hook
              [Enqueue 0 [1]; Fire 1; Enqueue 2 [2]; Enqueue 3 [3]]
              eq_refl eq_refl H3) as (Hs & Hq & _).
  split; [exact Hs | exact Hq].
Defined.

(** *** After [stop()] *)

Lemma scheduleLoop_no_ctx now h : ctxRef h = None -> scheduleLoop now h = h.
Proof. intros E. unfold scheduleLoop. rewrite E. reflexivity. Qed.

Lemma stopped_step h e :
  ctxRef h = None -> isPlayingRef h = false ->
  started (playback_step h e) = started h
  /\ recvQueueRef (playback_step h e) = recvQueueRef h ++ enqueued [e]
  /\ ctxRef (playback_step h e) = None
  /\ isPlayingRef (playback_step h e) = false.
Proof.
  intros Hc Hp. destruct e as [now pcm16 | now]; cbn [playback_step enqueued].
  - unfold enqueue. set (h1 := with_enhanced _ _).
    assert (Hc1 : ctxRef h1 = None) by exact Hc.
    rewrite Hc1.
    destruct (negb (isPlayingRef h1) && _); repeat split; assumption.
  - rewrite app_nil_r. unfold fire. destruct (timers h) as [|t ts]; [auto|].
    set (h1 := with_playback _ _ _ _ _ _).
    assert (Hc1 : ctxRef h1 = None) by exact Hc.
    destruct t.
    + rewrite (scheduleLoop_no_ctx now h1 Hc1). repeat split; assumption.
    + change (recvQueueRef h1) with (recvQueueRef h).
      destruct (recvQueueRef h) eqn:Eq.
      * repeat split; cbn [started recvQueueRef ctxRef with_playback];
          assumption || reflexivity.
      * rewrite (scheduleLoop_no_ctx now h1 Hc1).
        repeat split; assumption || reflexivity.
Qed.

Lemma stopped_run evs : forall h,
  ctxRef h = None -> isPlayingRef h = false ->
  started (playback_run evs h) = started h
  /\ recvQueueRef (playback_run evs h) = recvQueueRef h ++ enqueued evs
  /\ isPlayingRef (playback_run evs h) = false.
Proof.
  induction evs as [|e evs IH]; intros h Hc Hp.
  - cbn. rewrite app_nil_r. auto.
  - unfold playback_run in *. cbn [fold_left].
    destruct (stopped_step h e Hc Hp) as (Hs & Hq & Hc' & Hp').
    destruct (IH _ Hc' Hp') as (Hs2 & Hq2 & Hp2).
    rewrite Hs2, Hq2, Hs, Hq, <- app_assoc.
    repeat split; try assumption.
    f_equal. destruct e; reflexivity.
Qed.

(** X7.  After [stop()] nothing is played any more: whatever still
    arrives and whichever timers of the scheduler still fire, no further
    source is started and the playing flag stays clear; the chunks that
    arrive pile up in the queue. *)
Theorem stop_silences (throws : Hook.release -> bool) (h : Hook.hook)
  (evs : list Hook.playback_event) :
  let h' := playback_run evs (stop throws h) in
  started h' = started h
  /\ recvQueueRef h' = recvQueueRef h ++ enqueued evs
  /\ isPlayingRef h' = false.
Proof.
  cbn zeta. apply (stopped_run evs (stop throws h)); reflexivity.
Qed.

(** *** What one tick does *)

Lemma schedule_while_bounds now rate queue : forall scheduled next st,
  let r := schedule_while now rate queue scheduled next st in
  (length (fst (fst r)) <= length queue - (10 - scheduled))%nat
  /\ (length (snd r) + scheduled <= length st + Nat.max scheduled 10)%nat
  /\ (length st <= length (snd r))%nat.
Proof.
  induction queue as [|pcm16 rest IH]; intros scheduled next st; cbn zeta.
  - cbn. lia.
  - cbn [schedule_while].
    destruct (Nat.ltb_spec scheduled 10) as [Hlt|Hge].
    + destruct (chunk_empty pcm16).
      * specialize (IH scheduled next st). cbn zeta in IH.
        cbn [length]. lia.
      * match goal with
        | |- context [schedule_while now rate rest ?s ?n ?t] =>
            specialize (IH s n t)
        end.
        cbn zeta in IH. rewrite length_app in IH. cbn [length] in *. lia.
    + cbn [fst snd length]. lia.
Qed.

Lemma scheduleLoop_bounds now h ctx :
  ctxRef h = Some ctx ->
  (length (recvQueueRef (scheduleLoop now h))
   <= length (recvQueueRef h) - 10)%nat
  /\ (length (started (scheduleLoop now h)) <= length (started h) + 10)%nat.
Proof.
  intros E. unfold scheduleLoop. rewrite E.
  pose proof (schedule_while_bounds now (sampleRate ctx) (recvQueueRef h) 0
                (nextPlayTimeRef h) (started h)) as H.
  cbn zeta in H.
  destruct (schedule_while _ _ _ _ _ _) as [[queue next] st].
  cbn [fst snd] in H.
  destruct queue; cbn [recvQueueRef started with_playback]; cbn [length] in *;
    lia.
Qed.

Lemma fire_bounds now h ctx t ts :
  ctxRef h = Some ctx -> timers h = t :: ts ->
  (length (recvQueueRef (fire now h)) <= length (recvQueueRef h) - 10)%nat
  /\ (length (started (fire now h)) <= length (started h) + 10)%nat
  /\ (length (started h) <= length (started (fire now h)))%nat.
Proof.
  intros E Et. unfold fire. rewrite Et. cbv zeta.
  set (h1 := with_playback _ _ _ _ _ _).
  assert (Hc : ctxRef h1 = Some ctx) by exact E.
  pose proof (scheduleLoop_bounds now h1 ctx Hc) as [Hq Hs].
  assert (Hmono : (length (started h1)
                   <= length (started (scheduleLoop now h1)))%nat).
  { unfold scheduleLoop. rewrite Hc.
    pose proof (schedule_while_bounds now (sampleRate ctx) (recvQueueRef h1) 0
                  (nextPlayTimeRef h1) (started h1)) as H.
    cbn zeta in H.
    destruct (schedule_while _ _ _ _ _ _) as [[queue next] st].
    cbn [fst snd] in H.
    destruct queue; cbn [started with_playback]; lia. }
  change (recvQueueRef h1) with (recvQueueRef h) in *.
  change (started h1) with (started h) in *.
  destruct t; [auto|].
  destruct (recvQueueRef h) eqn:Eq; [|auto].
  cbn [recvQueueRef started with_playback length]. lia.
Qed.

(** The loop takes chunks off the front of the queue and starts the
    non-empty ones, in order, after the sources started before; it stops
    at the end of the queue, or with the tenth source it starts. *)
Lemma schedule_while_takes now rate queue : forall scheduled next st,
  (scheduled <= 10)%nat ->
  let r := schedule_while now rate queue scheduled next st in
  exists taken new,
    queue = taken ++ fst (fst r)
    /\ snd r = st ++ new
    /\ map fst new = nonempty_chunks taken
    /\ (scheduled + length new <= 10)%nat
    /\ (fst (fst r) = []
        \/ ((scheduled + length new = 10)%nat
            /\ (taken = []
                \/ exists front last,
                     taken = front ++ [last] /\ chunk_empty last = false))).
Proof.
  induction queue as [|pcm16 rest IH]; intros scheduled next st Hs; cbn zeta.
  - exists [], []. cbn. rewrite app_nil_r. repeat split; auto. lia.
  - cbn [schedule_while].
    destruct (Nat.ltb_spec scheduled 10) as [Hlt|Hge].
    + destruct (chunk_empty pcm16) eqn:Ec.
      * destruct (IH scheduled next st Hs)
          as (taken & new & Hq & Hst & Hm & Hn & He).
        exists (pcm16 :: taken), new. cbn [app]. rewrite <- Hq.
        repeat split; try assumption.
        { unfold nonempty_chunks in *. cbn [filter]. rewrite Ec. exact Hm. }
        destruct He as [He|[Hten Hlast]]; [left; exact He | right].
        split; [exact Hten|]. right.
        destruct Hlast as [Hnil|(front & last & Hf & Hl)].
        -- subst taken. cbn in Hm. apply map_eq_nil in Hm. subst new.
           cbn [length] in Hten. lia.
        -- exists (pcm16 :: front), last. rewrite Hf. split; [reflexivity|].
           exact Hl.
      * match goal with
        | |- context [schedule_while now rate rest ?s ?n ?t] =>
            destruct (IH s n t) as (taken & new & Hq & Hst & Hm & Hn & He);
              [lia|]
        end.
        match type of Hst with
        | _ = (_ ++ [?src]) ++ _ => exists (pcm16 :: taken), (src :: new)
        end.
        cbn [app]. rewrite <- Hq. rewrite Hst, <- app_assoc.
        cbn [app map fst length]. repeat split.
        -- unfold nonempty_chunks in *. cbn [filter]. rewrite Ec.
           cbn [negb]. f_equal. exact Hm.
        -- lia.
        -- destruct He as [He|[Hten Hlast]]; [left; exact He | right].
           split; [lia|]. right.
           destruct Hlast as [Hnil|(front & last & Hf & Hl)].
           ++ exists [], pcm16. subst taken. split; [reflexivity | exact Ec].
           ++ exists (pcm16 :: front), last. rewrite Hf.
              split; [reflexivity | exact Hl].
    + exists [], []. cbn [app fst snd length map]. rewrite app_nil_r.
      repeat split; try reflexivity; [lia|].
      right. split; [lia|]. left. reflexivity.
Qed.

Lemma scheduleLoop_takes now h ctx :
  ctxRef h = Some ctx ->
  exists taken new,
    recvQueueRef h = taken ++ recvQueueRef (scheduleLoop now h)
    /\ started (scheduleLoop now h) = started h ++ new
    /\ map fst new = nonempty_chunks taken
    /\ (length new <= 10)%nat
    /\ (recvQueueRef (scheduleLoop now h) = []
        \/ (length new = 10%nat
            /\ exists front last,
                 taken = front ++ [last] /\ chunk_empty last = false)).
Proof.
  intros E. unfold scheduleLoop. rewrite E.
  destruct (schedule_while_takes now (sampleRate ctx) (recvQueueRef h) 0
              (nextPlayTimeRef h) (started h))
    as (taken & new & Hq & Hst & Hm & Hn & He); [lia|].
  destruct (schedule_while _ _ _ _ _ _) as [[queue next] st].
  cbn [fst snd] in *. exists taken, new.
  assert (He' : queue = []
                \/ (length new = 10%nat
                    /\ exists front last,
                         taken = front ++ [last]
                         /\ chunk_empty last = false)).
  { destruct He as [He|[Hten Hlast]]; [left; exact He | right].
    split; [exact Hten|].
    destruct Hlast as [Hnil|Hlast]; [|exact Hlast].
    subst taken. cbn in Hm. apply map_eq_nil in Hm. subst new.
    discriminate Hten. }
  destruct queue; cbn [recvQueueRef started with_playback];
    repeat split; assumption.
Qed.

(** X8.  What one tick of the scheduler does, with an audio context.  It
    takes chunks off the front of the queue and leaves the rest of the
    queue as it was.  The sources it starts are the non-empty chunks
    taken, in the order of the queue, added after the sources started
    before, all of which are kept.  It stops when the queue is empty, or
    with the chunk that makes its tenth source. *)
Theorem tick_takes_ten (now : Q) (h : Hook.hook) (ctx : Hook.AudioContext)
  (t : Hook.timer) (ts : list Hook.timer) :
  ctxRef h = Some ctx -> timers h = t :: ts ->
  exists taken new,
    recvQueueRef h = taken ++ recvQueueRef (fire now h)
    /\ started (fire now h) = started h ++ new
    /\ map fst new = nonempty_chunks taken
    /\ (length new <= 10)%nat
    /\ (recvQueueRef (fire now h) = []
        \/ (length new = 10%nat
            /\ exists front last,
                 taken = front ++ [last] /\ chunk_empty last = false)).
Proof.
  intros E Et. unfold fire. rewrite Et. cbv zeta.
  set (h1 := with_playback _ _ _ _ _ _).
  assert (Hc : ctxRef h1 = Some ctx) by exact E.
  pose proof (scheduleLoop_takes now h1 ctx Hc) as Hloop.
  change (recvQueueRef h1) with (recvQueueRef h) in *.
  change (started h1) with (started h) in *.
  destruct t; [exact Hloop|].
  destruct (recvQueueRef h) eqn:Eq; [|exact Hloop].
  exists [], []. cbn [recvQueueRef started with_playback app map length].
  rewrite app_nil_r. repeat split; auto. lia.
Qed.

Lemma tick_takes_ten_witness :
  (ctxRef (playback_run backlog running_hook)
   = Some {| sampleRate := inject_Z SAMPLE_RATE |}
   /\ timers (playback_run backlog running_hook) = [TimerCheck])
  /\ exists taken new,
       recvQueueRef (playback_run backlog running_hook)
       = taken ++ [[17]; [18]]
       /\ started (fire (2 # 100) (playback_run backlog running_hook))
          = started (playback_run backlog running_hook) ++ new
       /\ map fst new = nonempty_chunks taken
       /\ length new = 10%nat.
Proof.
  split; [split; vm_compute; reflexivity|].
  destruct (tick_takes_ten (2 # 100) (playback_run backlog running_hook)
              {| sampleRate := inject_Z SAMPLE_RATE |} TimerCheck [])
    as (taken & new & Hq & Hst & Hm & Hn & He);
    [vm_compute; reflexivity | vm_compute; reflexivity |].
  exists taken, new.
  assert (Hrest : recvQueueRef (fire (2 # 100)
                                  (playback_run backlog running_hook))
                  = [[17]; [18]]) by (vm_compute; reflexivity).
  rewrite Hrest in Hq, He.
  repeat split; try assumption.
  destruct He as [He|[He _]]; [discriminate He | exact He].
Defined.

(** The tick on the backlog: six sources are started and thirteen chunks
    wait, one of them empty; the tick starts ten more, drops the empty
    chunk and leaves the last two. *)
Example tick_backlog :
  let h := playback_run backlog running_hook in
  map fst (started h) = [[1]; [2]; [3]; [4]; [5]; [6]]
  /\ recvQueueRef h
     = [[7]; []; [8]; [9]; [10]; [11]; [12]; [13]; [14]; [15]; [16]; [17];
        [18]]
  /\ map fst (started (fire (2 # 100) h))
     = [[1]; [2]; [3]; [4]; [5]; [6]; [7]; [8]; [9]; [10]; [11]; [12]; [13];
        [14]; [15]; [16]]
  /\ recvQueueRef (fire (2 # 100) h) = [[17]; [18]].
Proof. cbv zeta. repeat split; vm_compute; reflexivity. Qed.

End SchedulerBounds.

Section SchedulerProgress.

Import Js Pcm Hook Timeline.

(** *** The queue drains *)

Lemma fire_alive now h ctx :
  ctxRef h = Some ctx -> alive h ->
  alive (fire now h)
  /\ (length (recvQueueRef (fire now h)) <= length (recvQueueRef h) - 10)%nat.
Proof.
  intros E [Hone Hlive].
  pose proof (fire_one_chain now h ctx E Hone) as Hone'.
  destruct (timers h) as [|t ts] eqn:Et.
  - assert (Hf : fire now h = h) by (unfold fire; rewrite Et; reflexivity).
    rewrite Hf. split; [split; assumption|].
    unfold one_chain in Hone. rewrite Et in Hone.
    destruct Hlive as [Hp|Hq]; [rewrite Hp in Hone; discriminate|].
    rewrite Hq. cbn. lia.
  - destruct (fire_bounds now h ctx t ts E Et) as [Hq _].
    split; [|exact Hq]. split; [exact Hone'|].
    unfold one_chain in Hone. rewrite Et in Hone.
    assert (Hp : isPlayingRef h = true).
    { destruct (isPlayingRef h); [reflexivity | discriminate Hone]. }
    unfold fire. rewrite Et. cbv zeta.
    set (h1 := with_playback _ _ _ _ _ _).
    assert (Hc : ctxRef h1 = Some ctx) by exact E.
    destruct (scheduleLoop_timer now h1 ctx Hc) as [_ Hkeep].
    destruct t.
    + left. rewrite Hkeep. exact Hp.
    + change (recvQueueRef h1) with (recvQueueRef h).
      destruct (recvQueueRef h) eqn:Eq.
      * right. reflexivity.
      * left. rewrite Hkeep. exact Hp.
Qed.

Lemma ticks_alive nows : forall h ctx,
  ctxRef h = Some ctx -> alive h ->
  alive (playback_run (map Fire nows) h)
  /\ (length (recvQueueRef (playback_run (map Fire nows) h))
      <= length (recvQueueRef h) - 10 * length nows)%nat.
Proof.
  induction nows as [|now nows IH]; intros h ctx E Hal.
  - cbn. split; [exact Hal | lia].
  - unfold playback_run in *. cbn [map fold_left playback_step].
    destruct (fire_alive now h ctx E Hal) as [Hal' Hq].
    destruct (IH (fire now h) ctx) as [Hal2 Hq2];
      [rewrite fire_ctx; exact E | exact Hal' |].
    split; [exact Hal2|]. cbn [length]. lia.
Qed.

Lemma enqueued_ticks nows : enqueued (map Fire nows) = [].
Proof. induction nows; [reflexivity | exact IHnows]. Qed.

(** X9.  Every chunk in the queue is started in the end: with an audio
    context and the scheduler running, once enough timers have fired,
    ten chunks a tick, the queue is empty and the chunks started are
    those started before followed by the non-empty chunks that were
    waiting, in their order. *)
Theorem queue_drains (h : Hook.hook) (ctx : Hook.AudioContext)
  (nows : list Q) :
  ctxRef h = Some ctx -> isPlayingRef h = true -> length (timers h) = 1%nat ->
  (length (recvQueueRef h) <= 10 * length nows)%nat ->
  let h' := playback_run (map Fire nows) h in
  recvQueueRef h' = []
  /\ map fst (started h')
     = map fst (started h) ++ nonempty_chunks (recvQueueRef h).
Proof.
  intros E Hp Ht Hlen h'.
  assert (Hal : alive h).
  { split; [unfold one_chain; rewrite Hp; exact Ht | left; exact Hp]. }
  destruct (ticks_alive nows h ctx E Hal) as [_ Hq]. fold h' in Hq.
  assert (Hempty : recvQueueRef h' = []).
  { destruct (recvQueueRef h'); [reflexivity | cbn [length] in Hq; lia]. }
  split; [exact Hempty|].
  pose proof (playback_run_order (map Fire nows) h) as Ho.
  fold h' in Ho. unfold playback_order in Ho.
  rewrite Hempty, enqueued_ticks in Ho. cbn [nonempty_chunks filter] in Ho.
  rewrite !app_nil_r in Ho. exact Ho.
Qed.

Lemma queue_drains_witness :
  let h := playback_run
             (firstn 6 two_bursts ++ [Enqueue (1 # 100) (frame_of 7)])
             running_hook in
  (ctxRef h = Some {| sampleRate := inject_Z SAMPLE_RATE |}
   /\ isPlayingRef h = true /\ length (timers h) = 1%nat
   /\ (length (recvQueueRef h) <= 10 * length [(2 # 100)%Q])%nat)
  /\ recvQueueRef (playback_run (map Fire [(2 # 100)%Q]) h) = []
  /\ map fst (started (playback_run (map Fire [(2 # 100)%Q]) h))
     = map frame_of [1; 2; 3; 4; 5; 6; 7].
Proof.
  intros h.
  assert (H1 : ctxRef h = Some {| sampleRate := inject_Z SAMPLE_RATE |})
    by (vm_compute; reflexivity).
  assert (H2 : isPlayingRef h = true) by (vm_compute; reflexivity).
  assert (H3 : length (timers h) = 1%nat) by (vm_compute; reflexivity).
  assert (H4 : (length (recvQueueRef h) <= 10 * length [(2 # 100)%Q])%nat)
    by (vm_compute; lia).
  split; [auto|].
  destruct (queue_drains h _ [(2 # 100)%Q] H1 H2 H3 H4) as [Hq Hs].
  split; [exact Hq|]. rewrite Hs. vm_compute. reflexivity.
Defined.

(** *** No empty source *)

Lemma schedule_while_no_empty now rate queue : forall scheduled next st,
  Forall (fun s => chunk_empty (fst s) = false) st ->
  Forall (fun s => chunk_empty (fst s) = false)
    (snd (schedule_while now rate queue scheduled next st)).
Proof.
  induction queue as [|pcm16 rest IH]; intros scheduled next st H.
  - exact H.
  - cbn [schedule_while]. destruct (scheduled <? 10)%nat; [|exact H].
    destruct (chunk_empty pcm16) eqn:Ec; [apply IH, H|].
    apply IH. apply Forall_app. split; [exact H|].
    constructor; [exact Ec | constructor].
Qed.

Lemma scheduleLoop_no_empty_source now h :
  Forall (fun s => chunk_empty (fst s) = false) (started h) ->
  Forall (fun s => chunk_empty (fst s) = false) (started (scheduleLoop now h)).
Proof.
  intros H. unfold scheduleLoop. destruct (ctxRef h) as [ctx|]; [|exact H].
  pose proof (schedule_while_no_empty now (sampleRate ctx) (recvQueueRef h) 0
                (nextPlayTimeRef h) (started h) H) as H'.
  destruct (schedule_while _ _ _ _ _ _) as [[queue next] st].
  destruct queue; exact H'.
Qed.

Lemma playback_step_no_empty_source h e :
  Forall (fun s => chunk_empty (fst s) = false) (started h) ->
  Forall (fun s => chunk_empty (fst s) = false) (started (playback_step h e)).
Proof.
  intros H. destruct e as [now pcm16 | now]; cbn [playback_step].
  - unfold enqueue. set (h1 := with_enhanced _ _).
    destruct (negb (isPlayingRef h1) && _); [|exact H].
    destruct (ctxRef h1); [|exact H].
    apply scheduleLoop_no_empty_source. exact H.
  - unfold fire. destruct (timers h) as [|t ts]; [exact H|].
    destruct t; [apply scheduleLoop_no_empty_source; exact H|].
    cbn [recvQueueRef with_playback]. destruct (recvQueueRef h);
      [exact H | apply scheduleLoop_no_empty_source; exact H].
Qed.

(** X10.  The scheduler never starts a source on an empty chunk, whatever
    is put in the queue: if the sources started so far all hold samples,
    so do the sources started after any run of arrivals and timers. *)
Theorem no_empty_source (h : Hook.hook) (evs : list Hook.playback_event) :
  Forall (fun s => chunk_empty (fst s) = false) (started h) ->
  Forall (fun s => chunk_empty (fst s) = false)
    (started (playback_run evs h)).
Proof.
  revert h. induction evs as [|e evs IH]; intros h H; [exact H|].
  unfold playback_run in *. cbn [fold_left].
  apply IH. apply playback_step_no_empty_source. exact H.
Qed.

Lemma no_empty_source_witness :
  Forall (fun s => chunk_empty (fst s) = false) (started running_hook)
  /\ Forall (fun s => chunk_empty (fst s) = false)
       (started
          (playback_run
             [Enqueue 0 [1]; Enqueue 0 []; Enqueue 0 [2]; Enqueue 0 [];
              Enqueue 0 [3]; Enqueue 0 [4]; Fire 1] running_hook)).
Proof.
  assert (H : Forall (fun s : list Z * Q => chunk_empty (fst s) = false)
                (started running_hook)) by constructor.
  split; [exact H|]. exact (no_empty_source running_hook _ H).
Defined.

(** *** Sources one after the other *)










End SchedulerProgress.

Section Chunking.

Import Js Pcm Hook.

Lemma app_same_length {A : Type} (a b x y : list A) :
  length a = length b -> a ++ x = b ++ y -> a = b /\ x = y.
Proof.
  revert b. induction a as [|u a IH]; intros [|v b] Hlen H; cbn in *;
    try discriminate.
  - auto.
  - injection H as -> H. destruct (IH b) as [-> ->]; [lia | exact H | auto].
Qed.

(** Whole frames and a rest shorter than a frame are fixed by the samples
    they hold. *)
Lemma frames_unique (f1 f2 : list (list number)) (a1 a2 : list number) :
  Forall full_frame f1 -> Forall full_frame f2 ->
  (length a1 < FRAME_SAMPLES)%nat -> (length a2 < FRAME_SAMPLES)%nat ->
  concat f1 ++ a1 = concat f2 ++ a2 ->
  f1 = f2 /\ a1 = a2.
Proof.
  intros H1. revert f2. induction H1 as [|x f1 Hx _ IH]; intros f2 H2 L1 L2 H.
  - destruct H2 as [|y f2 Hy _]; [auto|]. exfalso.
    cbn [concat app] in H. rewrite <- app_assoc in H.
    apply (f_equal (@length number)) in H. rewrite length_app in H.
    unfold full_frame in Hy. lia.
  - destruct H2 as [|y f2 Hy H2].
    + exfalso. cbn [concat app] in H. rewrite <- app_assoc in H.
      apply (f_equal (@length number)) in H. rewrite length_app in H.
      unfold full_frame in Hx. lia.
    + cbn [concat] in H. rewrite <- !app_assoc in H.
      assert (Hxy : length x = length y)
        by (unfold full_frame in *; congruence).
      destruct (app_same_length x y _ _ Hxy H) as [-> H'].
      destruct (IH f2 H2 L1 L2 H') as [-> ->]. auto.
Qed.

(** X12.  How the audio arrives does not matter to the frames: two runs
    of audio events that push the same samples on an empty accumulator,
    cut into chunks in any two ways, send the same frames and keep the
    same rest. *)
Theorem frames_independent_of_chunking
  (h : Hook.hook) (evs1 evs2 : list (Hook.readyState * list number)) :
  pushed (wsRef h) evs1 = pushed (wsRef h) evs2 ->
  sent (audio_run evs1 (with_accum h [] []))
  = sent (audio_run evs2 (with_accum h [] []))
  /\ accumRef (audio_run evs1 (with_accum h [] []))
     = accumRef (audio_run evs2 (with_accum h [] [])).
Proof.
  intros Hsame.
  destruct (accumulated_run evs1 [] _ (accumulated_reset h))
    as (f1 & Hs1 & Hc1 & Hf1 & Hl1).
  destruct (accumulated_run evs2 [] _ (accumulated_reset h))
    as (f2 & Hs2 & Hc2 & Hf2 & Hl2).
  cbn [app wsRef with_accum] in Hc1, Hc2.
  rewrite Hsame, <- Hc2 in Hc1.
  destruct (frames_unique f1 f2 _ _ Hf1 Hf2 Hl1 Hl2 Hc1) as [-> Ha].
  split; [congruence | exact Ha].
Qed.

Lemma frames_independent_of_chunking_witness :
  pushed (wsRef running_hook)
    [(OPEN, repeat (Fin 1) 200); (CLOSED, [Fin 0]);
     (OPEN, repeat (Fin 1) 200)]
  = pushed (wsRef running_hook) [(OPEN, repeat (Fin 1) 400)]
  /\ sent (audio_run [(OPEN, repeat (Fin 1) 200); (CLOSED, [Fin 0]);
                      (OPEN, repeat (Fin 1) 200)]
             (with_accum running_hook [] []))
     = sent (audio_run [(OPEN, repeat (Fin 1) 400)]
               (with_accum running_hook [] [])).
Proof.
  assert (H : pushed (wsRef running_hook)
                [(OPEN, repeat (Fin 1) 200); (CLOSED, [Fin 0]);
                 (OPEN, repeat (Fin 1) 200)]
              = pushed (wsRef running_hook) [(OPEN, repeat (Fin 1) 400)])
    by (vm_compute; reflexivity).
  split; [exact H|].
  exact (proj1 (frames_independent_of_chunking running_hook _ _ H)).
Defined.

End Chunking.

Section RecorderFacts.

Import Js Pcm DataView Wav Preview.

Lemma recorder_drain_cuts can_send accum out :
  exists frames,
    snd (Recorder.drain can_send accum out)
    = out ++ (if can_send then map Recorder.frame_to_int16 frames else [])
    /\ concat frames ++ fst (Recorder.drain can_send accum out) = accum
    /\ Forall (fun f => length f = Recorder.FRAME_SAMPLES) frames
    /\ (length (fst (Recorder.drain can_send accum out))
        < Recorder.FRAME_SAMPLES)%nat.
Proof.
  funelim (Recorder.drain can_send accum out).
  - destruct H as (frames & Hsnd & Hcat & Hfull & Hlen).
    exists (firstn Recorder.FRAME_SAMPLES accum :: frames).
    clear Heqcall. split; [|split; [|split]].
    + rewrite Hsnd. destruct can_send.
      * rewrite <- app_assoc. reflexivity.
      * reflexivity.
    + cbn [concat]. rewrite <- app_assoc, Hcat. apply firstn_skipn.
    + constructor; [|exact Hfull]. rewrite length_firstn. lia.
    + exact Hlen.
  - exists []. cbn [map concat fst snd app].
    split; [|split; [|split]]; auto.
    destruct can_send; rewrite app_nil_r; reflexivity.
Qed.

Lemma recorded_step P ws state input r :
  Recorder.recorded P r ->
  Recorder.recorded (P ++ input) (Recorder.onaudioprocess ws state input r).
Proof.
  intros (frames & Hcat & Hfull & Hlen & Hcount & Hsent).
  unfold Recorder.onaudioprocess.
  set (can_send := match ws with None => false | Some _ => _ end).
  destruct (recorder_drain_cuts can_send
              (Recorder.accumulatedInput r ++ input) (Recorder.sent r))
    as (more & Hsnd & Hcat' & Hfull' & Hlen').
  destruct (Recorder.drain _ _ _) as [accum out]. cbn [fst snd] in *.
  exists (frames ++ more). cbn [Recorder.accumulatedInput Recorder.sent].
  split; [|split; [|split; [|split]]].
  - rewrite concat_app, <- app_assoc, Hcat', app_assoc, Hcat. reflexivity.
  - apply Forall_app. split; assumption.
  - exact Hlen'.
  - rewrite Hsnd, !length_app. destruct can_send; cbn [length];
      [rewrite length_map|]; lia.
  - rewrite Hsnd. apply Forall_app. split; [exact Hsent|].
    destruct can_send; [|constructor].
    apply Forall_map. eapply Forall_impl; [|exact Hfull'].
    intros f Hf. unfold Recorder.frame_to_int16. rewrite length_map.
    exact Hf.
Qed.

Lemma recorded_run evs : forall P r,
  Recorder.recorded P r ->
  Recorder.recorded (P ++ Recorder.all_input evs) (Recorder.audio_run evs r).
Proof.
  induction evs as [|[[ws state] input] evs IH]; intros P r H.
  - cbn. rewrite app_nil_r. exact H.
  - cbn [Recorder.audio_run]. unfold Recorder.all_input in *.
    cbn [flat_map snd]. rewrite app_assoc. apply IH.
    apply recorded_step. exact H.
Qed.

Lemma recorded_fresh : Recorder.recorded [] Recorder.fresh.
Proof.
  exists []. cbn. repeat split; try constructor.
  unfold Recorder.FRAME_SAMPLES. lia.
Qed.

(** X13.  The recording hook cuts frames whether or not the socket is
    open: after any run of audio events on an empty accumulator, the
    accumulator holds the samples that follow the last whole frame of all
    the input, fewer than 320; every frame sent has 320 samples; and no
    more frames were sent than the input holds. *)
Theorem recorder_keeps_tail
  (evs : list (option Hook.handle * Hook.readyState * list number)) :
  let r := Recorder.audio_run evs Recorder.fresh in
  let input := Recorder.all_input evs in
  let whole := (length input / Recorder.FRAME_SAMPLES)%nat in
  Recorder.accumulatedInput r
  = skipn (whole * Recorder.FRAME_SAMPLES) input
  /\ (length (Recorder.accumulatedInput r) < Recorder.FRAME_SAMPLES)%nat
  /\ Forall (fun f => length f = Recorder.FRAME_SAMPLES) (Recorder.sent r)
  /\ (length (Recorder.sent r) <= whole)%nat.
Proof.
  intros r input whole.
  destruct (recorded_run evs [] _ recorded_fresh)
    as (frames & Hcat & Hfull & Hlen & Hcount & Hsent).
  fold r in Hcat, Hlen, Hcount, Hsent. cbn [app] in Hcat. fold input in Hcat.
  assert (Hcl : length (concat frames)
                = (length frames * Recorder.FRAME_SAMPLES)%nat).
  { clear -Hfull. induction Hfull as [|f fs Hf _ IH]; [reflexivity|].
    cbn [concat length]. rewrite length_app, IH, Hf. lia. }
  assert (Hw : whole = length frames).
  { unfold whole. rewrite <- Hcat, length_app, Hcl.
    symmetry. apply Nat.div_unique with (length (Recorder.accumulatedInput r));
      [exact Hlen | lia]. }
  split; [|split; [|split]].
  - rewrite Hw, <- Hcl, <- Hcat, skipn_app, skipn_all, Nat.sub_diag.
    reflexivity.
  - exact Hlen.
  - exact Hsent.
  - rewrite Hw. exact Hcount.
Qed.

Lemma recorder_drain_open accum out :
  Recorder.drain true accum out = Hook.drain accum out.
Proof.
  funelim (Recorder.drain true accum out).
  - rewrite H. clear H Heqcall.
    set (lhs := Hook.drain (skipn _ _) _).
    rewrite Hook.drain_equation_1.
    change Hook.FRAME_SAMPLES with Recorder.FRAME_SAMPLES.
    rewrite Heq. reflexivity.
  - rewrite Hook.drain_equation_1.
    change Hook.FRAME_SAMPLES with Recorder.FRAME_SAMPLES.
    rewrite Heq. reflexivity.
Qed.

(** X14.  With the socket open throughout, the recording hook sends what
    the first hook sends: the same frames, in the same order, with the
    same rest in the accumulator. *)
Theorem recorder_agrees_when_open
  (h : Hook.hook) (ws : Hook.handle) (inputs : list (list number)) :
  Hook.wsRef h = Some ws ->
  let r := Recorder.audio_run
             (map (fun input => (Some ws, Hook.OPEN, input)) inputs)
             Recorder.fresh in
  let h' := Hook.audio_run (map (fun input => (Hook.OPEN, input)) inputs)
              (Hook.with_accum h [] []) in
  Recorder.sent r = Hook.sent h'
  /\ Recorder.accumulatedInput r = Hook.accumRef h'.
Proof.
  intros Hws. cbn zeta.
  assert (Hgen : forall r h0,
    Hook.wsRef h0 = Some ws ->
    Recorder.sent r = Hook.sent h0 ->
    Recorder.accumulatedInput r = Hook.accumRef h0 ->
    Recorder.sent
      (Recorder.audio_run
         (map (fun input => (Some ws, Hook.OPEN, input)) inputs) r)
    = Hook.sent
        (Hook.audio_run (map (fun input => (Hook.OPEN, input)) inputs) h0)
    /\ Recorder.accumulatedInput
         (Recorder.audio_run
            (map (fun input => (Some ws, Hook.OPEN, input)) inputs) r)
       = Hook.accumRef
           (Hook.audio_run (map (fun input => (Hook.OPEN, input)) inputs)
              h0)).
  { induction inputs as [|input inputs IH]; intros r h0 Hw Hs Ha.
    - cbn. auto.
    - cbn [map Recorder.audio_run Hook.audio_run].
      apply IH.
      + rewrite onaudioprocess_ws. exact Hw.
      + unfold Recorder.onaudioprocess, Hook.onaudioprocess.
        rewrite Hw. cbn [Hook.is_open negb].
        rewrite recorder_drain_open, Hs, Ha.
        destruct (Hook.drain _ _). reflexivity.
      + unfold Recorder.onaudioprocess, Hook.onaudioprocess.
        rewrite Hw. cbn [Hook.is_open negb].
        rewrite recorder_drain_open, Hs, Ha.
        destruct (Hook.drain _ _). reflexivity. }
  apply Hgen; [exact Hws | reflexivity | reflexivity].
Qed.

Lemma recorder_agrees_when_open_witness :
  Hook.wsRef Hook.running_hook = Some 1%nat
  /\ map (@length Z)
       (Recorder.sent
          (Recorder.audio_run
             (map (fun input => (Some 1%nat, Hook.OPEN, input))
                [repeat (Fin 1) 300; repeat (Fin 0) 400])
             Recorder.fresh))
     = [320%nat; 320%nat].
Proof.
  split; [reflexivity|].
  pose proof (recorder_agrees_when_open Hook.running_hook 1%nat
                [repeat (Fin 1) 300; repeat (Fin 0) 400] eq_refl) as H.
  cbn zeta in H. destruct H as [Hs _].
  etransitivity; [apply (f_equal (map (@length Z))); exact Hs|].
  vm_compute. reflexivity.
Defined.

Example recorder_drops_frames_ex :
  let r := Recorder.audio_run
             [(Some 1%nat, Hook.CONNECTING, repeat (Fin 1) 400);
              (Some 1%nat, Hook.OPEN, repeat (Fin 1) 300)] Recorder.fresh in
  length (Recorder.sent r) = 1%nat
  /\ length (Recorder.accumulatedInput r) = 60%nat.
Proof. vm_compute. split; reflexivity. Qed.

End RecorderFacts.

Section WavAgreement.

Import Js Pcm DataView Wav Preview.

Lemma sample_loop_fill rest : forall pre i,
  length pre = (44 + i * 2)%nat ->
  Recorder.sample_loop (pre ++ repeat 0 (length rest * 2)) 44 i rest
  = Some (pre ++ flat_map (fun x => sample_bytes (of_Z x)) rest).
Proof.
  induction rest as [|x rest IH]; intros pre i Hpre.
  - cbn. reflexivity.
  - cbn [Recorder.sample_loop length flat_map].
    rewrite <- Hpre, setInt16_next. cbn [bind].
    rewrite IH, <- app_assoc; [reflexivity|].
    rewrite length_app, length_sample_bytes. lia.
Qed.

(** X15.  The WAV writer written out in the recording hook agrees with
    [pcm16ToWavBlob]: for at least one chunk received, its [makePreview]
    never raises and builds, byte for byte, the blob that
    [pcm16ToWavBlob] builds from the chunks end to end at 16000 Hz, one
    channel. *)
Theorem recorder_preview_agrees (chunks : list (list Z)) :
  chunks <> [] ->
  exists blob,
    Wav.pcm16ToWavBlob (concat chunks) Recorder.SAMPLE_RATE 1 = Some blob
    /\ Recorder.makePreview chunks = PreviewOf blob.
Proof.
  intros Hne. eexists. split; [apply pcm16ToWavBlob_bytes|].
  unfold Recorder.makePreview. destruct chunks as [|c chunks]; [congruence|].
  set (cs := c :: chunks).
  change (fold_left (fun sum chunk => (sum + length chunk)%nat) cs 0%nat)
    with (total_length cs).
  pose proof (concat_loop_fill cs []) as Hc. cbn [app length] in Hc.
  rewrite Hc. cbn [bind]. clear Hc.
  generalize (concat cs). intros combined.
  cbn -[ToUint32 ToUint16 ToUint8 Recorder.sample_loop Z.modulo Z.div Z.mul
        Z.add Z.of_nat].
  match goal with
  | |- context [Recorder.sample_loop ?b _ _ _] =>
      change b with (header (length combined) Recorder.SAMPLE_RATE 1
                     ++ repeat 0 (length combined * 2))
  end.
  rewrite sample_loop_fill by reflexivity. reflexivity.
Qed.

Lemma recorder_preview_agrees_witness :
  [[1; -2]; [3]] <> []
  /\ exists blob,
       Wav.pcm16ToWavBlob [1; -2; 3] 16000 1 = Some blob
       /\ Recorder.makePreview [[1; -2]; [3]] = PreviewOf blob.
Proof.
  assert (H : [[1; -2]; [3]] <> []) by discriminate.
  split; [exact H|]. exact (recorder_preview_agrees [[1; -2]; [3]] H).
Defined.

(** X19.  [pcm16ToWavBlob] never raises, for any samples, rate and
    channel count, and always lays out the same header: the tags RIFF,
    WAVE, "fmt " and data at bytes 0, 8, 12 and 36, a RIFF size of 36
    plus the data size, a format chunk of 16 bytes, format 1 (PCM), the
    channel count, the sample rate and a block align of two bytes per
    channel, each reduced to the width of its field; the blob has 44
    bytes and two per sample and the type audio/wav. *)
Theorem wav_header_layout (pcm16 : list Z) (sampleRate numChannels : Z) :
  exists blob,
    Wav.pcm16ToWavBlob pcm16 sampleRate numChannels = Some blob
    /\ blob_type blob = "audio/wav"%string
    /\ length (blob_bytes blob) = (44 + 2 * length pcm16)%nat
    /\ firstn 4 (blob_bytes blob) = map charCodeAt (list_ascii_of_string "RIFF")
    /\ firstn 8 (skipn 8 (blob_bytes blob))
       = map charCodeAt (list_ascii_of_string "WAVEfmt ")
    /\ firstn 4 (skipn 36 (blob_bytes blob))
       = map charCodeAt (list_ascii_of_string "data")
    /\ getUint32 (blob_bytes blob) 4
       = ToUint32 (36 + Z.of_nat (length pcm16) * 2)
    /\ getUint32 (blob_bytes blob) 16 = 16
    /\ getUint16 (blob_bytes blob) 20 = 1
    /\ getUint16 (blob_bytes blob) 22 = ToUint16 numChannels
    /\ getUint32 (blob_bytes blob) 24 = ToUint32 sampleRate
    /\ getUint16 (blob_bytes blob) 32 = ToUint16 (numChannels * 2).
Proof.
  eexists. split; [apply pcm16ToWavBlob_bytes|]. cbn [blob_bytes blob_type].
  split; [reflexivity|].
  split; [rewrite length_app, length_flat_sample_bytes; reflexivity|].
  split; [reflexivity|]. split; [reflexivity|]. split; [reflexivity|].
  unfold getUint32, getUint16.
  set (data := flat_map _ pcm16).
  split.
  { change (firstn 4 (skipn 4 (header (length pcm16) sampleRate numChannels
                                 ++ data)))
      with (le_bytes 4 (ToUint32 (36 + Z.of_nat (length pcm16) * 2))).
    rewrite le_value_le_bytes. unfold ToUint32. apply Z.mod_mod. lia. }
  split; [reflexivity|]. split; [reflexivity|].
  split.
  { change (firstn 2 (skipn 22 (header (length pcm16) sampleRate numChannels
                                  ++ data)))
      with (le_bytes 2 (ToUint16 numChannels)).
    rewrite le_value_le_bytes. unfold ToUint16. apply Z.mod_mod. lia. }
  split.
  { change (firstn 4 (skipn 24 (header (length pcm16) sampleRate numChannels
                                  ++ data)))
      with (le_bytes 4 (ToUint32 sampleRate)).
    rewrite le_value_le_bytes. unfold ToUint32. apply Z.mod_mod. lia. }
  change (firstn 2 (skipn 32 (header (length pcm16) sampleRate numChannels
                                ++ data)))
    with (le_bytes 2 (ToUint16 (numChannels * 2))).
  rewrite le_value_le_bytes. unfold ToUint16. apply Z.mod_mod. lia.
Qed.

(** X20.  The two encoders agree: [floatTo16BitPCM] of the .jsx hook never
    raises and returns, two bytes a sample, the bytes of the buffer of
    the [Int16Array] that [floatToInt16] makes of the same samples. *)
Theorem floatTo16BitPCM_agrees (float32Array : list number) :
  Pcm.floatTo16BitPCM float32Array
  = Some (Preview.buffer_of_Int16Array (floatToInt16 float32Array))
  /\ length (Preview.buffer_of_Int16Array (floatToInt16 float32Array))
     = (2 * length float32Array)%nat.
Proof.
  unfold buffer_of_Int16Array, floatToInt16. split.
  - rewrite floatTo16BitPCM_bytes. f_equal. rewrite flat_map_concat_map.
    rewrite (flat_map_concat_map _ (map sample_to_int16 float32Array)).
    rewrite map_map. f_equal. apply map_ext. intros x.
    unfold sample_bytes. rewrite ToInt16_of_Z.
    rewrite (wrap16_id _ (sample_to_int16_range x)). reflexivity.
  - rewrite length_flat_sample_bytes, length_map. reflexivity.
Qed.

End WavAgreement.

Section ConversionOrder.

Import Js Pcm.

Lemma truncate_nonneg q : (0 <= q)%Q -> truncate q = Qfloor q.
Proof.
  destruct q as [n d]. unfold Qle, truncate, Qfloor. cbn. intros H.
  apply Z.quot_div_nonneg; lia.
Qed.

Lemma truncate_nonpos q : (q <= 0)%Q -> truncate q = Qceiling q.
Proof.
  destruct q as [n d]. unfold Qle, truncate, Qceiling, Qfloor. cbn. intros H.
  rewrite <- (Z.opp_involutive n) at 1. rewrite Z.quot_opp_l by lia.
  rewrite Z.quot_div_nonneg by lia. reflexivity.
Qed.

Lemma truncate_mono x y : (x <= y)%Q -> truncate x <= truncate y.
Proof.
  intros H. destruct (Qlt_le_dec x 0) as [Hx|Hx];
    destruct (Qlt_le_dec y 0) as [Hy|Hy].
  - rewrite !truncate_nonpos by (apply Qlt_le_weak; assumption).
    apply Qceiling_resp_le, H.
  - rewrite (truncate_nonpos x) by (apply Qlt_le_weak; assumption).
    rewrite (truncate_nonneg y) by assumption.
    transitivity 0.
    + change 0 with (Qceiling 0). apply Qceiling_resp_le, Qlt_le_weak, Hx.
    + change 0 with (Qfloor 0). apply Qfloor_resp_le, Hy.
  - exfalso. apply (Qlt_not_le _ _ Hy). eapply Qle_trans; eassumption.
  - rewrite !truncate_nonneg by assumption. apply Qfloor_resp_le, H.
Qed.

Lemma clamp_cases q :
  (clamp q == q /\ -1 <= q <= 1)%Q
  \/ (clamp q == -1 /\ q <= -1)%Q
  \/ (clamp q == 1 /\ 1 <= q)%Q.
Proof.
  unfold clamp. change (inject_Z 1) with 1%Q. change (inject_Z (-1)) with (-1)%Q.
  destruct (Qlt_bool q 1) eqn:E1.
  - apply Qlt_bool_true in E1. destruct (Qlt_bool (-1) q) eqn:E2.
    + apply Qlt_bool_true in E2. left. split; [reflexivity|]. split; lra.
    + apply Qlt_bool_false in E2. right. left. split; [reflexivity | exact E2].
  - apply Qlt_bool_false in E1. cbn. right. right.
    split; [reflexivity | exact E1].
Qed.

Lemma scaled_cases q :
  (clamp q < 0 /\ scaled q == clamp q * 32768)%Q
  \/ (0 <= clamp q /\ scaled q == clamp q * 32767)%Q.
Proof.
  unfold scaled. change (inject_Z 0) with 0%Q.
  change (inject_Z 32768) with 32768%Q. change (inject_Z 32767) with 32767%Q.
  destruct (Qlt_bool (clamp q) 0) eqn:E.
  - apply Qlt_bool_true in E. left. split; [exact E | reflexivity].
  - apply Qlt_bool_false in E. right. split; [exact E | reflexivity].
Qed.

Lemma scaled_mono x y : (x <= y)%Q -> (scaled x <= scaled y)%Q.
Proof.
  intros H.
  destruct (clamp_cases x) as [[Hx Bx]|[[Hx Bx]|[Hx Bx]]];
    destruct (clamp_cases y) as [[Hy By]|[[Hy By]|[Hy By]]];
    destruct (scaled_cases x) as [[Sx Ex]|[Sx Ex]];
    destruct (scaled_cases y) as [[Sy Ey]|[Sy Ey]];
    rewrite Ex, Ey; rewrite Hx in *; rewrite Hy in *; lra.
Qed.

(** X17.  The conversion keeps the order of finite samples: a sample that
    is not smaller converts to a value that is not smaller, so clipping
    and scaling never turn a louder sample into a weaker one or flip a
    sign. *)
Theorem floatToInt16_monotone (x y : Q) :
  (x <= y)%Q ->
  Pcm.sample_to_int16 (Fin x) <= Pcm.sample_to_int16 (Fin y).
Proof.
  intros H. rewrite !sample_to_int16_fin.
  apply truncate_mono, scaled_mono, H.
Qed.

Lemma floatToInt16_monotone_witness :
  ((-1 # 3) <= (1 # 7))%Q
  /\ Pcm.sample_to_int16 (Fin (-1 # 3)) <= Pcm.sample_to_int16 (Fin (1 # 7)).
Proof.
  assert (H : ((-1 # 3) <= (1 # 7))%Q) by (vm_compute; discriminate).
  split; [exact H|]. exact (floatToInt16_monotone _ _ H).
Defined.

(** X18.  [int16ToFloat32] hands the audio context finite samples of
    [-1, 1): for every [Int16Array] it keeps the length, and sample [x]
    becomes the finite number [x / 32768], not below -1 and below 1. *)
Theorem int16ToFloat32_range (int16 : list Z) :
  Pcm.Int16Array_ok int16 ->
  length (Pcm.int16ToFloat32 int16) = length int16
  /\ Forall (fun v => exists q, v = Fin q /\ (-1 <= q /\ q < 1)%Q)
       (Pcm.int16ToFloat32 int16).
Proof.
  intros Hok. unfold int16ToFloat32. split; [apply length_map|].
  apply Forall_map. unfold Int16Array_ok in Hok.
  eapply Forall_impl; [|exact Hok].
  intros x Hx. unfold is_int16 in Hx.
  exists ((x * 1) # 32768). split; [reflexivity|].
  unfold Qle, Qlt. cbn. lia.
Qed.

Lemma int16ToFloat32_range_witness :
  Pcm.Int16Array_ok [-32768; 0; 32767]
  /\ Forall (fun v => exists q, v = Fin q /\ (-1 <= q /\ q < 1)%Q)
       (Pcm.int16ToFloat32 [-32768; 0; 32767]).
Proof.
  assert (H : Pcm.Int16Array_ok [-32768; 0; 32767]).
  { repeat constructor; unfold is_int16; lia. }
  split; [exact H|].
  exact (proj2 (int16ToFloat32_range [-32768; 0; 32767] H)).
Defined.

End ConversionOrder.

Section StreamerFacts.

Import Js DataView Pcm Ieee754 Resample Preview.

Lemma floatTo16BitPCM_encoded (down : list float) :
  floatTo16BitPCM (map to_number down) = Some (Streamer.encoded down).
Proof.
  unfold Streamer.encoded, buffer_of_Int16Array, floatToInt16.
  generalize (map to_number down). intros float32Array.
  rewrite floatTo16BitPCM_bytes. f_equal.
  rewrite !flat_map_concat_map, map_map. f_equal. apply map_ext. intros x.
  unfold sample_bytes. rewrite ToInt16_of_Z.
  rewrite (wrap16_id _ (sample_to_int16_range x)). reflexivity.
Qed.

Lemma pcm_bytes_value sampleRate input :
  Streamer.pcm_bytes sampleRate input
  = option_map Streamer.encoded
      (downsampleBuffer input sampleRate Streamer.TARGET_SAMPLE_RATE).
Proof.
  unfold Streamer.pcm_bytes.
  destruct (downsampleBuffer input sampleRate Streamer.TARGET_SAMPLE_RATE)
    as [down|]; [|reflexivity].
  cbn [bind option_map]. apply floatTo16BitPCM_encoded.
Qed.

(** X21.  What one audio callback of the streaming hook hands to the
    request body.  When the downsampler raises, the error is caught and
    nothing is enqueued.  Otherwise the conversion does not raise, and
    with a controller the chunk enqueued is the little-endian int16
    conversion of the downsampled input, two bytes for each of its
    samples; without a controller nothing is enqueued. *)
Theorem streamer_chunk (sampleRate : float) (controller : bool)
  (input : list float) (enqueued : list (list Z)) :
  match downsampleBuffer input sampleRate Streamer.TARGET_SAMPLE_RATE with
  | None =>
      Streamer.onaudioprocess sampleRate controller input enqueued = enqueued
  | Some down =>
      let pcmBytes :=
        buffer_of_Int16Array (floatToInt16 (map to_number down)) in
      Streamer.onaudioprocess sampleRate controller input enqueued
      = (if controller then enqueued ++ [pcmBytes] else enqueued)
      /\ length pcmBytes = (2 * length down)%nat
      /\ samples_of_bytes pcmBytes = floatToInt16 (map to_number down)
  end.
Proof.
  unfold Streamer.onaudioprocess. rewrite pcm_bytes_value.
  destruct (downsampleBuffer input sampleRate Streamer.TARGET_SAMPLE_RATE)
    as [down|]; cbn [option_map]; [|reflexivity].
  cbv zeta. split; [reflexivity|]. split.
  - unfold buffer_of_Int16Array.
    rewrite length_flat_sample_bytes. unfold floatToInt16.
    rewrite !length_map. reflexivity.
  - unfold buffer_of_Int16Array. apply samples_of_data.
    unfold Int16Array_ok, floatToInt16. apply Forall_map, Forall_forall.
    intros x _. apply sample_to_int16_range.
Qed.

(** Three callbacks with a controller: nine samples at 48000 Hz make
    three; the samples [-0.5] and [-(0.5 - 2^-25)] at 32000 Hz make the
    one sample -16384; at a rate of 0 the downsampler raises and nothing
    is enqueued. *)
Example streamer_chunk_ex :
  Streamer.onaudioprocess (of_Z 48000) true
    (map of_Z [1; 1; 1; 0; 0; 0; -1; -1; -1]) []
  = [[255; 127; 0; 0; 0; 128]]
  /\ Streamer.onaudioprocess (of_Z 32000) true
       [ldexp (-1) (-1); ldexp (-16777215) (-25)] []
     = [[0; 192]]
  /\ Streamer.onaudioprocess (of_Z 0) true (map of_Z [1; 1; 1]) [[1; 2]]
     = [[1; 2]].
Proof. repeat split; vm_compute; reflexivity. Qed.

Lemma collect_all sampleRate inputs : forall chunks,
  Streamer.collect sampleRate inputs chunks
  = chunks ++ flat_map (Streamer.chunk_of sampleRate) inputs.
Proof.
  induction inputs as [|input rest IH]; intros chunks.
  - cbn. rewrite app_nil_r. reflexivity.
  - cbn [Streamer.collect flat_map]. rewrite pcm_bytes_value.
    assert (Hc : Streamer.chunk_of sampleRate input
                 = match downsampleBuffer input sampleRate
                           Streamer.TARGET_SAMPLE_RATE with
                   | Some down => [Streamer.encoded down]
                   | None => []
                   end) by reflexivity.
    rewrite Hc. clear Hc.
    destruct (downsampleBuffer input sampleRate Streamer.TARGET_SAMPLE_RATE)
      as [down|]; cbn [option_map]; rewrite IH.
    + rewrite <- app_assoc. reflexivity.
    + reflexivity.
Qed.

(** X22.  The preview upload of the streaming hook: the body posted by
    [makePreview()] is built without raising and is, in order, the bytes
    of every audio callback of the capture that returned, each being the
    little-endian int16 conversion of its downsampled input; a callback
    whose downsampler raised adds nothing. *)
Theorem streamer_preview_body (sampleRate : float)
  (inputs : list (list float)) :
  Streamer.preview_body sampleRate inputs
  = Some (concat
            (flat_map
               (fun input =>
                  match downsampleBuffer input sampleRate
                          Streamer.TARGET_SAMPLE_RATE with
                  | Some down =>
                      [buffer_of_Int16Array
                         (floatToInt16 (map to_number down))]
                  | None => []
                  end) inputs)).
Proof.
  unfold Streamer.preview_body. rewrite collect_all. cbn [app].
  set (chunks := flat_map _ inputs).
  change (fold_left (fun s c => (s + length c)%nat) chunks 0%nat)
    with (total_length chunks).
  apply (concat_loop_fill chunks []).
Qed.

(** A capture of three callbacks at 48000 Hz, the second of them empty
    input. *)
Example streamer_preview_body_ex :
  Streamer.preview_body (of_Z 48000)
    [map of_Z [1; 1; 1; 0; 0; 0]; []; map of_Z [-1; -1; -1]]
  = Some [255; 127; 0; 0; 0; 128].
Proof. vm_compute. reflexivity. Qed.

End StreamerFacts.
